(** * sketches-go: the sparse bucket store, the sketch and the
      linearly-interpolated mapping, embedded from the Go sources

    Layout of the development:
    - [Go]: the parts of the Go language the code relies on (int32
      wrap-around, float64 as IEEE binary64, maps that may be nil, panics);
    - [store]: package store, [Bin] and [SparseStore] (ddsketch/store/bin.go);
    - [mapping]: the [IndexMapping] interface and the linearly-interpolated
      mapping (ddsketch/mapping);
    - [ddsketch]: the sketch (ddsketch/ddsketch.go);
    - concrete stores and sketches, and the vocabulary of the properties;
    - the properties: facts about binary64 comparisons, then the store
      ([AddWithCount], [NewSparseStore], [KeyAtRank]), the sketch
      ([AddWithCount], [Copy], [GetValueAtQuantile], [MergeWith],
      [IsEmpty]) and the comparison [Equals] of the mapping. *)

From Stdlib Require Import ZArith Lia Floats.
From stdpp Require Import gmap list sorting strings.

Open Scope Z_scope.

(* ===================================================================== *)
(** * The Go fragment used by the code *)
(* ===================================================================== *)

Module Go.

Definition MaxInt32 : Z := 2147483647.
Definition MinInt32 : Z := -2147483648.

(** An [int32] is a [Z]; [int32 z] is the value a 32-bit two's-complement
    register holds after computing [z]. *)
Definition int32 (z : Z) : Z := (z + 2147483648) `mod` 4294967296 - 2147483648.

Definition is_int32 (z : Z) : Prop := MinInt32 ≤ z ≤ MaxInt32.

(** [float64] is IEEE binary64, the kernel's primitive [float]; [NaN] is
    the not-a-number value and every comparison with it is false. *)
Definition NaN : float := PrimFloat.nan.

(** The conversion [float64(n)] of an [int32]; it is exact. *)
Definition float64 (n : Z) : float :=
  if n <? 0 then PrimFloat.opp (PrimFloat.of_uint63 (Uint63.of_Z (- n)))
  else PrimFloat.of_uint63 (Uint63.of_Z n).

(** The comparisons [x < y] and [x > y] on float64. *)
Definition flt (x y : float) : bool := PrimFloat.ltb x y.
Definition fgt (x y : float) : bool := PrimFloat.ltb y x.
Definition fle (x y : float) : bool := PrimFloat.leb x y.
Definition fge (x y : float) : bool := PrimFloat.leb y x.
Definition feq (x y : float) : bool := PrimFloat.eqb x y.

(** [math.Abs] and [math.Max] of the standard library. [Max] returns
    [+Inf] when an argument is [+Inf], otherwise NaN when an argument is
    NaN, and prefers [+0] to [-0]. *)
Definition Abs (x : float) : float := PrimFloat.abs x.

Definition Max (x y : float) : float :=
  if feq x infinity || feq y infinity then infinity
  else if PrimFloat.is_nan x || PrimFloat.is_nan y then NaN
  else if feq x 0 && feq x y then
    match Prim2SF x with
    | S754_zero true => y
    | _ => x
    end
  else if fgt x y then x else y.

(** A Go [error] value; [None] is [nil]. *)
Definition error : Type := option string.

(** A call either returns or panics (a runtime fault that unwinds the
    goroutine). *)
Inductive outcome (A : Type) : Type :=
| Returns (a : A)
| Panics (msg : string).
Arguments Returns {A} a.
Arguments Panics {A} msg.

(** Sequencing: a panic in a callee propagates to the caller. *)
#[export] Instance outcome_bind : MBind outcome := λ A B k o,
  match o with
  | Returns a => k a
  | Panics msg => Panics msg
  end.

Definition panicked {A : Type} (o : outcome A) : Prop := ∃ msg, o = Panics msg.

(** A [map[int]int32]. A map variable that was never initialised is [nil]:
    it reads as the empty map, and assigning to an entry of it panics. *)
Definition gomap : Type := option (gmap Z Z).

Definition nil_map_write : string := "assignment to entry in nil map".

(** [m[k]]: the zero value when the key is absent (or the map is nil). *)
Definition map_get (m : gomap) (k : Z) : Z :=
  match m with
  | Some g => default 0 (g !! k)
  | None => 0
  end.

(** [len(m)]. *)
Definition map_len (m : gomap) : nat :=
  match m with
  | Some g => size g
  | None => 0%nat
  end.

(** The entries a [range] loop visits (in an order the language leaves
    open; here the order of [map_to_list]). *)
Definition map_range (m : gomap) : list (Z * Z) :=
  match m with
  | Some g => map_to_list g
  | None => []
  end.

(** [m[k] += v] on int32 values. *)
Definition map_add (m : gomap) (k v : Z) : outcome gomap :=
  match m with
  | Some g => Returns (Some (<[k := int32 (default 0 (g !! k) + v)]> g))
  | None => Panics nil_map_write
  end.

(** [make(map[int]int32, n)]. *)
Definition make_map : gomap := Some ∅.

End Go.

Import Go.

(* ===================================================================== *)
(** * Package store: ddsketch/store/bin.go *)
(* ===================================================================== *)

Module store.

(** The field [count] of [Bin] is [bcount] here: [SparseStore] has a field
    of the same name. *)
Record Bin : Type := mkBin { index : Z; bcount : Z }.

Definition NewBin (index : Z) (count : Z) : option Bin * error :=
  if count <? 0 then (None, Some "count cannot be negative"%string)
  else (Some (mkBin index count), None).

Definition Index (b : Bin) : Z := index b.
Definition Count (b : Bin) : Z := bcount b.

Record SparseStore : Type := mkSparseStore {
  bins : gomap;
  count : Z;
  minIndex : Z;
  maxIndex : Z
}.

(** The composite literal leaves [bins] at its zero value, the nil map. *)
Definition NewSparseStore : SparseStore :=
  {| bins := None; count := 0; minIndex := MaxInt32; maxIndex := MinInt32 |}.

Definition AddWithCount (s : SparseStore) (index : Z) (count_ : Z)
  : outcome SparseStore :=
  if count_ =? 0 then Returns s
  else
    let maxIndex' := if maxIndex s <? index then index else maxIndex s in
    let minIndex' := if index <? minIndex s then index else minIndex s in
    bins' ← map_add (bins s) index count_ ;
    Returns {| bins := bins';
               count := int32 (count s + count_);
               minIndex := minIndex';
               maxIndex := maxIndex' |}.

Definition Add (s : SparseStore) (index : Z) : outcome SparseStore :=
  AddWithCount s index 1.

Definition AddBin (s : SparseStore) (bin : Bin) : outcome SparseStore :=
  let index := Index bin in
  let count_ := Count bin in
  if count_ =? 0 then Returns s
  else AddWithCount s index count_.

(** [Copy] allocates a fresh map, so the bins of the copy are never nil. *)
Definition Copy (s : SparseStore) : SparseStore :=
  let bins' := foldl (λ (b : gmap Z Z) kv, <[kv.1 := kv.2]> b) ∅ (map_range (bins s)) in
  {| bins := Some bins';
     count := count s;
     minIndex := minIndex s;
     maxIndex := maxIndex s |}.

Definition IsEmpty (s : SparseStore) : bool := count s =? 0.

Definition MaxIndex (s : SparseStore) : Z * error :=
  if IsEmpty s then (0, Some "MaxIndex of empty store is undefined"%string)
  else (maxIndex s, None).

Definition MinIndex (s : SparseStore) : Z * error :=
  if IsEmpty s then (0, Some "MinIndex of empty store is undefined"%string)
  else (minIndex s, None).

Definition TotalCount (s : SparseStore) : Z := count s.

(** The slice [keys] of [KeyAtRank] before sorting: [make([]int, len)]
    yields [len] zeros, and the loop appends every key after them. *)
Definition rank_keys (s : SparseStore) : list Z :=
  replicate (map_len (bins s)) 0 ++ (map_range (bins s)).*1.

(** The loop over the sorted keys; [n] is the running int32 total. *)
Fixpoint rank_scan (s : SparseStore) (rank : float) (n : Z) (keys : list Z)
  : option Z :=
  match keys with
  | [] => None
  | k :: keys' =>
      let n' := int32 (n + map_get (bins s) k) in
      if fgt (float64 n') rank then Some k
      else rank_scan s rank n' keys'
  end.

Definition KeyAtRank (s : SparseStore) (rank : float) : Z :=
  let keys := merge_sort Z.le (rank_keys s) in
  match rank_scan s rank 0 keys with
  | Some k => k
  | None => maxIndex s
  end.

(** The loop [for k, v := range o.bins { s.bins[k] += v }]. *)
Fixpoint merge_bins (b : gomap) (kvs : list (Z * Z)) : outcome gomap :=
  match kvs with
  | [] => Returns b
  | (k, v) :: kvs' => b' ← map_add b k v ; merge_bins b' kvs'
  end.

(** [SparseStore] is the one implementation of [Store] in the sources, so
    the type assertion of [other] to a sparse store succeeds. *)
Definition MergeWith (s other : SparseStore) : outcome SparseStore :=
  if IsEmpty other then Returns s
  else
    let minIndex' := if minIndex other <? minIndex s then minIndex other else minIndex s in
    let maxIndex' := if maxIndex s <? maxIndex other then maxIndex other else maxIndex s in
    bins' ← merge_bins (bins s) (map_range (bins other)) ;
    Returns {| bins := bins';
               count := int32 (count s + count other);
               minIndex := minIndex';
               maxIndex := maxIndex' |}.

(** [Bins]: the goroutine ranges over the map, sends one [Bin] per entry
    on an unbuffered channel and closes it. The list is the sequence of
    values a receiver reads from the channel, on a store that is not
    mutated while it is enumerated. *)
Definition Bins (s : SparseStore) : list Bin :=
  (λ kv, mkBin kv.1 kv.2) <$> map_range (bins s).

(** The loop [for bin := range other.Bins() { s.AddBin(bin) }]. *)
Fixpoint add_bins (s : SparseStore) (bs : list Bin) : outcome SparseStore :=
  match bs with
  | [] => Returns s
  | bin :: bs' => s' ← AddBin s bin ; add_bins s' bs'
  end.

(** The branch of [MergeWith] taken when [other] is a [Store] of another
    type: [other] is seen through [IsEmpty] and [Bins] only. *)
Definition MergeWithBins (s : SparseStore) (otherIsEmpty : bool) (otherBins : list Bin)
  : outcome SparseStore :=
  if otherIsEmpty then Returns s
  else add_bins s otherBins.

End store.

(* ===================================================================== *)
(** * Package mapping: the IndexMapping interface *)
(* ===================================================================== *)

Module mapping.

(** The interface [IndexMapping]; [M] is the type of the implementing
    struct. A mapping is immutable after construction. *)
Class IndexMapping (M : Type) : Type := {
  Equals : M → M → bool;
  Index : M → float → Z;
  Value : M → Z → float;
  RelativeAccuracy : M → float;
  MinIndexableValue : M → float;
  MaxIndexableValue : M → float
}.

(** ** ddsketch/mapping/linearly_interpolated_mapping.go

    The struct and the methods that consist of binary64 arithmetic and
    comparisons. The constructors, [Index], [Value] and the indexable
    bounds go through [math.Log1p], [math.Log2], [math.Exp] and
    [math.Exp2], whose binary64 results are not given by a formula of
    IEEE arithmetic; they are not embedded. *)
Module LinearlyInterpolated.

Record LinearlyInterpolatedMapping : Type := mkLinearlyInterpolatedMapping {
  relativeAccuracy : float;
  multiplier : float;
  normalizedIndexOffset : float
}.

Definition withinTolerance (x y tolerance : float) : bool :=
  if feq x 0 || feq y 0 then
    fle (Abs x) tolerance && fle (Abs y) tolerance
  else
    fle (Abs (x - y)) (tolerance * Max (Abs x) (Abs y)).

(** [Equals] on two linearly-interpolated mappings (the type assertion
    on [other] succeeds). *)
Definition Equals (m o : LinearlyInterpolatedMapping) : bool :=
  let tol := 0x1.19799812dea11p-40%float in   (* the float64 nearest 1e-12 *)
  withinTolerance (multiplier m) (multiplier o) tol
  && withinTolerance (normalizedIndexOffset m) (normalizedIndexOffset o) tol.

Definition RelativeAccuracy (m : LinearlyInterpolatedMapping) : float :=
  relativeAccuracy m.

End LinearlyInterpolated.

(** ** A small implementation of the interface

    The sketch is generic in its mapping. To run it on concrete inputs the
    development uses this implementation: buckets of width one over the
    indexable range from [lo] to [hi]. *)
Module fixture.

Record unitMapping : Type := mkUnitMapping { lo : float; hi : float }.

(** The conversion [int(x)] of a finite float64: truncation. *)
Definition to_int (x : float) : Z :=
  match Prim2SF x with
  | S754_finite sign m e =>
      let a := if 0 <=? e then Z.pos m * 2 ^ e else Z.pos m / 2 ^ (- e) in
      if sign then - a else a
  | _ => 0
  end.

#[export] Instance unitMapping_IndexMapping : IndexMapping unitMapping := {|
  Equals a b := PrimFloat.eqb (lo a) (lo b) && PrimFloat.eqb (hi a) (hi b);
  Index _ value := to_int value;
  Value _ index := float64 index;
  RelativeAccuracy _ := 1%float;
  MinIndexableValue a := lo a;
  MaxIndexableValue a := hi a
|}.

(** Values up to [0.5] count as zero; values up to [1000] are tracked. *)
Definition unit1000 : unitMapping := {| lo := 0.5%float; hi := 1000%float |}.

End fixture.

End mapping.

(* ===================================================================== *)
(** * Package ddsketch: ddsketch/ddsketch.go *)
(* ===================================================================== *)

Module ddsketch.

Section Sketch.
Context {M : Type} `{mapping.IndexMapping M}.

(** The embedded interface value is the field [IndexMapping]; the store
    is the sparse store, which the sketch owns. *)
Record DDSketch : Type := mkDDSketch {
  IndexMapping : M;
  store : store.SparseStore;
  zeroCount : Z
}.

Definition NewDDSketch (indexMapping : M) (store_ : store.SparseStore) : DDSketch :=
  {| IndexMapping := indexMapping; store := store_; zeroCount := 0 |}.

Definition AddWithCount (s : DDSketch) (value : float) (count : Z)
  : outcome (DDSketch * error) :=
  if flt value 0 || fgt value (mapping.MaxIndexableValue (IndexMapping s)) then
    Returns (s, Some "input value is outside the range that is tracked by the sketch"%string)
  else if count <? 0 then
    Returns (s, Some "The count cannot be negative."%string)
  else if fgt value (mapping.MinIndexableValue (IndexMapping s)) then
    store' ← store.AddWithCount (store s) (mapping.Index (IndexMapping s) value) count;
    Returns ({| IndexMapping := IndexMapping s;
                store := store';
                zeroCount := zeroCount s |}, None)
  else
    Returns ({| IndexMapping := IndexMapping s;
                store := store s;
                zeroCount := int32 (zeroCount s + count) |}, None).

Definition Add (s : DDSketch) (value : float) : outcome (DDSketch * error) :=
  AddWithCount s value 1.

(** The composite literal names two fields; [zeroCount] gets its zero
    value. *)
Definition Copy (s : DDSketch) : DDSketch :=
  {| IndexMapping := IndexMapping s;
     store := store.Copy (store s);
     zeroCount := 0 |}.

Definition GetCount (s : DDSketch) : Z :=
  int32 (zeroCount s + store.TotalCount (store s)).

Definition IsEmpty (s : DDSketch) : bool :=
  (zeroCount s =? 0) && store.IsEmpty (store s).

Definition GetValueAtQuantile (s : DDSketch) (quantile : float) : float * error :=
  if flt quantile 0 || fgt quantile 1 then
    (NaN, Some "The quantile must be between 0 and 1."%string)
  else
    let count := GetCount s in
    if count =? 0 then (NaN, Some "no such element exists"%string)
    else
      let rank := PrimFloat.mul quantile (float64 (int32 (count - 1))) in
      if flt rank (float64 (zeroCount s)) then (0%float, None)
      else
        (mapping.Value (IndexMapping s)
           (store.KeyAtRank (store s) (PrimFloat.sub rank (float64 (zeroCount s)))),
         None).

Definition MergeWith (s other : DDSketch) : outcome (DDSketch * error) :=
  if negb (mapping.Equals (IndexMapping s) (IndexMapping other)) then
    Returns (s, Some "Cannot merge sketches with different index mappings."%string)
  else
    store' ← store.MergeWith (store s) (store other);
    Returns ({| IndexMapping := IndexMapping s;
                store := store';
                zeroCount := int32 (zeroCount s + zeroCount other) |}, None).

(** The loop stores each value at its position and stops at the first
    error, returning the nil slice ([None]) with it. *)
Fixpoint GetValuesAtQuantiles (s : DDSketch) (quantiles : list float)
  : option (list float) * error :=
  match quantiles with
  | [] => (Some [], None)
  | q :: quantiles' =>
      match GetValueAtQuantile s q with
      | (_, Some err) => (None, Some err)
      | (val, None) =>
          match GetValuesAtQuantiles s quantiles' with
          | (Some values, None) => (Some (val :: values), None)
          | (_, err) => (None, err)
          end
      end
  end.

Definition GetMaxValue (s : DDSketch) : float * error :=
  if negb (store.IsEmpty (store s)) then
    let '(maxIndex, _) := store.MaxIndex (store s) in
    (mapping.Value (IndexMapping s) maxIndex, None)
  else (0%float, None).

Definition GetMinValue (s : DDSketch) : float * error :=
  if 0 <? zeroCount s then (0%float, None)
  else
    match store.MinIndex (store s) with
    | (_, Some err) => (NaN, Some err)
    | (minIndex, None) => (mapping.Value (IndexMapping s) minIndex, None)
    end.

Definition Bins (s : DDSketch) : list store.Bin := store.Bins (store s).

End Sketch.

Arguments DDSketch M : clear implicits.

End ddsketch.

(* ===================================================================== *)
(** * Concrete inputs and the vocabulary of the properties *)
(* ===================================================================== *)

Import mapping.fixture.

(** An empty store with an allocated bin map: [NewSparseStore().Copy()]. *)
Definition emptyStore : store.SparseStore := store.Copy store.NewSparseStore.

(** The store after [Add(0)] and [Add(5)] on [emptyStore]. *)
Definition store05 : store.SparseStore :=
  {| store.bins := Some (<[5 := 1]> (<[0 := 1]> ∅));
     store.count := 2; store.minIndex := 0; store.maxIndex := 5 |}.

(** The store after [AddWithCount(5, -1)] on [emptyStore]. *)
Definition storeNeg : store.SparseStore :=
  {| store.bins := Some (<[5 := -1]> ∅);
     store.count := -1; store.minIndex := 5; store.maxIndex := 5 |}.

(** The store after [AddWithCount(-3, 2)] and [Add(5)] on [emptyStore]. *)
Definition storeNoZero : store.SparseStore :=
  {| store.bins := Some (<[5 := 1]> (<[-3 := 2]> ∅));
     store.count := 3; store.minIndex := -3; store.maxIndex := 5 |}.

Section RankVocabulary.

(** The bin indices of a store. *)
Definition bin_indices (s : store.SparseStore) : list Z :=
  (map_range (store.bins s)).*1.

(** The cumulative count of all bins with index [≤ k]. *)
Definition cumulativeCount (s : store.SparseStore) (k : Z) : Z :=
  foldr Z.add 0 ((filter (λ kv, kv.1 ≤ k) (map_range (store.bins s))).*2).

(** The count [c] strictly exceeds the rank [r]. *)
Definition exceeds (c : Z) (r : float) : bool := fgt (float64 c) r.

(** What [KeyAtRank(r)] is to return: the smallest bin index whose
    cumulative count strictly exceeds [r]; [maxIndex] when [r] is at or
    beyond the total count. *)
Definition IsKeyAtRank (s : store.SparseStore) (r : float) (k : Z) : Prop :=
  (k ∈ bin_indices s ∧ exceeds (cumulativeCount s k) r = true ∧
   ∀ j, j ∈ bin_indices s → exceeds (cumulativeCount s j) r = true → k ≤ j)
  ∨ (fge r (float64 (store.TotalCount s)) = true ∧ k = store.maxIndex s).

(** The sum of the bins at the indices of a list. *)
Definition bins_sum (s : store.SparseStore) (l : list Z) : Z :=
  foldr (λ k a, map_get (store.bins s) k + a) 0 l.

(** The sum of all bins. *)
Definition bins_total (s : store.SparseStore) : Z :=
  foldr Z.add 0 (map_range (store.bins s)).*2.

(** The sorted key slice of [KeyAtRank] without its leading zeros. *)
Definition ascending_keys (s : store.SparseStore) : list Z :=
  filter (λ k, k ≠ 0) (merge_sort Z.le (store.rank_keys s)).

End RankVocabulary.

Section SketchVocabulary.

(** [NewDDSketch(m, NewSparseStore())]: the store's bin map is nil. *)
Definition sketchNew : ddsketch.DDSketch unitMapping :=
  ddsketch.NewDDSketch unit1000 store.NewSparseStore.

(** A new sketch over the empty store with an allocated bin map. *)
Definition sketchAlloc : ddsketch.DDSketch unitMapping :=
  ddsketch.NewDDSketch unit1000 emptyStore.

(** [sketchNew] after [Add(0)]: one value counted as zero. *)
Definition sketchZero : ddsketch.DDSketch unitMapping :=
  {| ddsketch.IndexMapping := unit1000;
     ddsketch.store := store.NewSparseStore;
     ddsketch.zeroCount := 1 |}.

(** [sketchAlloc] after [Add(5)]: one value in bin 5. *)
Definition sketchFive : ddsketch.DDSketch unitMapping :=
  {| ddsketch.IndexMapping := unit1000;
     ddsketch.store := {| store.bins := Some (<[5 := 1]> ∅); store.count := 1;
                          store.minIndex := 5; store.maxIndex := 5 |};
     ddsketch.zeroCount := 0 |}.

(** A sketch built over [storeNeg], after [Add(0)]: the zero count 1 and
    the store count -1 cancel. *)
Definition sketchCancel : ddsketch.DDSketch unitMapping :=
  {| ddsketch.IndexMapping := unit1000;
     ddsketch.store := storeNeg;
     ddsketch.zeroCount := 1 |}.

(** [sketchAlloc] after [Add(NaN)]. *)
Definition sketchNaN : ddsketch.DDSketch unitMapping :=
  {| ddsketch.IndexMapping := unit1000;
     ddsketch.store := emptyStore;
     ddsketch.zeroCount := 1 |}.

Context {M : Type} `{mapping.IndexMapping M}.

(** The value [v] lies outside the closed interval from 0 to 1. *)
Definition outside_unit_interval (q : float) : bool :=
  negb (fle 0 q && fle q 1).

(** The range and count checks of the sketch's [AddWithCount]. *)
Definition rejects (s : ddsketch.DDSketch M) (v : float) (c : Z) : Prop :=
  flt v 0 = true
  ∨ fgt v (mapping.MaxIndexableValue (ddsketch.IndexMapping s)) = true
  ∨ c < 0.

(** The call returned the error-free result [s']. *)
Definition succeeds_with {A : Type} (o : outcome (A * error)) (s' : A) : Prop :=
  o = Returns (s', None).

(** The call returned an error and the state [s']. *)
Definition fails_with {A : Type} (o : outcome (A * error)) (s' : A) : Prop :=
  ∃ e, o = Returns (s', Some e).

(** [s'] is [s] with [c] more values counted as zero. *)
Definition zero_counted (s s' : ddsketch.DDSketch M) (c : Z) : Prop :=
  s' = {| ddsketch.IndexMapping := ddsketch.IndexMapping s;
          ddsketch.store := ddsketch.store s;
          ddsketch.zeroCount := int32 (ddsketch.zeroCount s + c) |}.

(** [s'] is [s] after the store added [c] at the index of [v]. *)
Definition store_counted (s s' : ddsketch.DDSketch M) (v : float) (c : Z) : Prop :=
  store.AddWithCount (ddsketch.store s)
    (mapping.Index (ddsketch.IndexMapping s) v) c = Returns (ddsketch.store s')
  ∧ ddsketch.zeroCount s' = ddsketch.zeroCount s
  ∧ ddsketch.IndexMapping s' = ddsketch.IndexMapping s.

(** The success clause of the sketch's [AddWithCount] as C3 words it:
    the test is [v <= MinIndexableValue()]. *)
Definition success_clause_le (s : ddsketch.DDSketch M) (v : float) (c : Z) : Prop :=
  ∀ s', succeeds_with (ddsketch.AddWithCount s v c) s' →
    if fle v (mapping.MinIndexableValue (ddsketch.IndexMapping s))
    then zero_counted s s' c
    else store_counted s s' v c.

(** The total a sketch holds, without wrap-around. *)
Definition total (s : ddsketch.DDSketch M) : Z :=
  ddsketch.zeroCount s + store.TotalCount (ddsketch.store s).

(** The stores a new sketch is built over: the store of [NewSparseStore]
    and its copy. *)
Definition fresh (st : store.SparseStore) : Prop :=
  st = store.NewSparseStore ∨ st = emptyStore.

(** The sketches reachable from a new one by successful [Add],
    [AddWithCount] and [MergeWith] calls whose totals stay within int32. *)
Inductive reachable : ddsketch.DDSketch M → Prop :=
| reach_new (m : M) (st : store.SparseStore) :
    fresh st → reachable (ddsketch.NewDDSketch m st)
| reach_Add (s s' : ddsketch.DDSketch M) (v : float) :
    reachable s → total s + 1 ≤ MaxInt32 →
    succeeds_with (ddsketch.Add s v) s' → reachable s'
| reach_AddWithCount (s s' : ddsketch.DDSketch M) (v : float) (c : Z) :
    reachable s → total s + c ≤ MaxInt32 →
    succeeds_with (ddsketch.AddWithCount s v c) s' → reachable s'
| reach_MergeWith (s o s' : ddsketch.DDSketch M) :
    reachable s → reachable o → total s + total o ≤ MaxInt32 →
    succeeds_with (ddsketch.MergeWith s o) s' → reachable s'.

(** The invariant of the reachable sketches: both counters are
    non-negative and their sum fits an int32. *)
Definition counts_ok (s : ddsketch.DDSketch M) : Prop :=
  0 ≤ ddsketch.zeroCount s
  ∧ 0 ≤ store.TotalCount (ddsketch.store s)
  ∧ total s ≤ MaxInt32.

End SketchVocabulary.


Section StoreVocabulary.

(** The bins of a store as a finite map; the nil map has none. *)
Definition bins_map (s : store.SparseStore) : gmap Z Z :=
  default ∅ (store.bins s).

(** The stores built through the methods of the package from the store of
    [NewSparseStore], with bin indices in the int32 range that its initial
    [minIndex] and [maxIndex] span. *)
Inductive built : store.SparseStore → Prop :=
| built_NewSparseStore : built store.NewSparseStore
| built_Copy (s : store.SparseStore) : built s → built (store.Copy s)
| built_Add (s s' : store.SparseStore) (i : Z) :
    built s → is_int32 i → store.Add s i = Returns s' → built s'
| built_AddWithCount (s s' : store.SparseStore) (i n : Z) :
    built s → is_int32 i → store.AddWithCount s i n = Returns s' → built s'
| built_AddBin (s s' : store.SparseStore) (b : store.Bin) :
    built s → is_int32 (store.Index b) → store.AddBin s b = Returns s' → built s'
| built_MergeWith (s o s' : store.SparseStore) :
    built s → built o → store.MergeWith s o = Returns s' → built s'.

(** What the methods keep true of a built store: the recorded count is the
    int32 sum of the bins, [minIndex] and [maxIndex] are the smallest and
    the largest bin index (the initial sentinels when there is no bin),
    and every bin holds an int32. *)
Definition store_ok (s : store.SparseStore) : Prop :=
  store.count s = int32 (bins_total s)
  ∧ (∀ k, k ∈ dom (bins_map s) → is_int32 k ∧ store.minIndex s ≤ k ≤ store.maxIndex s)
  ∧ (dom (bins_map s) ≠ ∅ →
     store.minIndex s ∈ dom (bins_map s) ∧ store.maxIndex s ∈ dom (bins_map s))
  ∧ (dom (bins_map s) = ∅ →
     store.minIndex s = MaxInt32 ∧ store.maxIndex s = MinInt32)
  ∧ (∀ k, is_int32 (map_get (store.bins s) k)).

(** The stores the methods of the package produce from the store of
    [NewSparseStore], whatever the indices. *)
Inductive produced : store.SparseStore → Prop :=
| produced_NewSparseStore : produced store.NewSparseStore
| produced_Copy (s : store.SparseStore) : produced s → produced (store.Copy s)
| produced_Add (s s' : store.SparseStore) (i : Z) :
    produced s → store.Add s i = Returns s' → produced s'
| produced_AddWithCount (s s' : store.SparseStore) (i n : Z) :
    produced s → store.AddWithCount s i n = Returns s' → produced s'
| produced_AddBin (s s' : store.SparseStore) (b : store.Bin) :
    produced s → store.AddBin s b = Returns s' → produced s'
| produced_MergeWith (s o s' : store.SparseStore) :
    produced s → produced o → store.MergeWith s o = Returns s' → produced s'.

(** The store after [Add(4294967296)] and [AddWithCount(-7, -2)] on
    [emptyStore]: an index beyond int32 and a negative count. *)
Definition storeWide : store.SparseStore :=
  {| store.bins := Some (<[-7 := -2]> (<[4294967296 := 1]> ∅));
     store.count := -1; store.minIndex := -7; store.maxIndex := 4294967296 |}.

(** The part of [store_ok] that does not depend on the indices. *)
Definition counts_kept (s : store.SparseStore) : Prop :=
  store.count s = int32 (bins_total s)
  ∧ (∀ k, is_int32 (map_get (store.bins s) k)).

(** The sum of the counts of a sequence of bins. *)
Definition counts_sum (bs : list store.Bin) : Z :=
  foldr (λ b a, store.Count b + a) 0 bs.

End StoreVocabulary.

Section HistoryVocabulary.

Context {M : Type} `{mapping.IndexMapping M}.

(** [after_adds n s]: the sketch [s] is a new sketch after [n] successful
    [Add] calls. *)
Inductive after_adds : nat → ddsketch.DDSketch M → Prop :=
| after_none (m : M) (st : store.SparseStore) :
    fresh st → after_adds 0 (ddsketch.NewDDSketch m st)
| after_Add (n : nat) (s s' : ddsketch.DDSketch M) (v : float) :
    after_adds n s → succeeds_with (ddsketch.Add s v) s' → after_adds (S n) s'.

(** The quantile [q] is answered without an error. *)
Definition answered (s : ddsketch.DDSketch M) (q : float) : Prop :=
  (ddsketch.GetValueAtQuantile s q).2 = None.

End HistoryVocabulary.
(* ===================================================================== *)
(** * Properties of the sparse store *)
(* ===================================================================== *)

Section FloatFacts.

(** No float64 is below or above NaN. *)
Lemma flt_NaN_l (x : float) : flt NaN x = false.
Proof.
  unfold flt, NaN. rewrite FloatAxioms.ltb_spec.
  change (Prim2SF nan) with S754_nan. reflexivity.
Qed.

Lemma flt_NaN_r (x : float) : flt x NaN = false.
Proof.
  unfold flt, NaN. rewrite FloatAxioms.ltb_spec.
  change (Prim2SF nan) with S754_nan.
  unfold SFltb. destruct (Prim2SF x); reflexivity.
Qed.

Lemma fgt_NaN_l (x : float) : fgt NaN x = false.
Proof. apply flt_NaN_r. Qed.

Lemma fle_NaN_l (x : float) : fle NaN x = false.
Proof.
  unfold fle, NaN. rewrite FloatAxioms.leb_spec.
  change (Prim2SF nan) with S754_nan. reflexivity.
Qed.

(** binary64 values with the same specification are equal, so [NaN] is
    the only not-a-number value of the embedding. *)
Lemma NaN_unique (x : float) : Prim2SF x = S754_nan → x = NaN.
Proof.
  intros Hx. rewrite <- (SF2Prim_Prim2SF x), Hx. reflexivity.
Qed.

Lemma SFcompare_swap (a b : spec_float) :
  SFcompare b a = CompOpp <$> SFcompare a b.
Proof.
  destruct a as [sa|sa| |sa ma ea], b as [sb|sb| |sb mb eb]; simpl;
    try reflexivity; try (destruct sa; reflexivity); try (destruct sb; reflexivity);
    try (destruct sa, sb; reflexivity).
  assert (Hm : PosDef.Pos.compare_cont Eq mb ma
               = CompOpp (PosDef.Pos.compare_cont Eq ma mb))
    by (symmetry; apply (Pos.compare_cont_antisym ma mb Eq)).
  destruct sa, sb; simpl; try reflexivity;
    rewrite (Z.compare_antisym ea eb); destruct (ea ?= eb); simpl;
    try reflexivity; rewrite Hm; try reflexivity.
Qed.

(** [x >= y] excludes [x < y]. *)
Lemma fge_not_flt (x y : float) : fge x y = true → flt x y = false.
Proof.
  unfold fge, flt. rewrite FloatAxioms.leb_spec, FloatAxioms.ltb_spec.
  unfold SFleb, SFltb. rewrite (SFcompare_swap (Prim2SF y) (Prim2SF x)).
  destruct (SFcompare (Prim2SF y) (Prim2SF x)) as [[| |]|]; simpl; congruence.
Qed.

(** IEEE rounding of a non-negative mantissa yields a zero, a finite
    number or an infinity. *)
Lemma iter_pos_invariant {A : Type} (f : A → A) (I : A → Prop) (p : positive) (x : A) :
  (∀ y, I y → I (f y)) → I x → I (SpecFloat.iter_pos f p x).
Proof.
  intros Hf. revert x. induction p as [p IH|p IH|]; intros x Hx; simpl; auto.
Qed.

Lemma shr_1_nonneg (mrs : shr_record) : 0 ≤ shr_m mrs → 0 ≤ shr_m (shr_1 mrs).
Proof. destruct mrs as [[|[p|p|]|p] r s]; simpl; lia. Qed.

Lemma shr_fexp_nonneg (m e : Z) (l : location) :
  0 ≤ m → 0 ≤ shr_m (shr_fexp prec emax m e l).1.
Proof.
  intros Hm. unfold shr_fexp, shr.
  assert (H0 : 0 ≤ shr_m (shr_record_of_loc m l)) by (destruct l as [|[| |]]; exact Hm).
  destruct (fexp prec emax (Zdigits2 m + e) - e) as [|p|p]; simpl; try exact H0.
  apply (iter_pos_invariant shr_1 (λ mrs, 0 ≤ shr_m mrs)); [apply shr_1_nonneg | exact H0].
Qed.

Lemma round_nearest_even_nonneg (m : Z) (l : location) :
  0 ≤ m → 0 ≤ round_nearest_even m l.
Proof. intros Hm. destruct l as [|[| |]]; simpl; try destruct (Z.even m); lia. Qed.

Lemma binary_round_aux_not_nan (sx : bool) (mx ex : Z) (lx : location) :
  0 ≤ mx → binary_round_aux prec emax sx mx ex lx ≠ S754_nan.
Proof.
  intros Hm. unfold binary_round_aux.
  pose proof (shr_fexp_nonneg mx ex lx Hm) as H1.
  destruct (shr_fexp prec emax mx ex lx) as [mrs' e']. simpl in H1.
  pose proof (shr_fexp_nonneg _ e' loc_Exact
                (round_nearest_even_nonneg _ (loc_of_shr_record mrs') H1)) as H2.
  destruct (shr_fexp prec emax _ e' loc_Exact) as [mrs'' e'']. simpl in H2.
  destruct (shr_m mrs'') as [|p|p]; [discriminate | | lia].
  destruct (e'' <=? emax - prec); discriminate.
Qed.

Lemma binary_normalize_not_nan (m e : Z) (szero : bool) :
  0 ≤ m → binary_normalize prec emax m e szero ≠ S754_nan.
Proof.
  intros Hm. destruct m as [|p|p]; simpl; [discriminate | | lia].
  unfold binary_round. destruct (shl_align _ _ _) as [mz ez].
  apply binary_round_aux_not_nan. lia.
Qed.

(** The conversion of an integer is a number. *)
Lemma float64_not_nan (n : Z) : Prim2SF (float64 n) ≠ S754_nan.
Proof.
  assert (Hof : ∀ i, Prim2SF (PrimFloat.of_uint63 i) ≠ S754_nan).
  { intros i. rewrite of_uint63_spec. apply binary_normalize_not_nan.
    apply Uint63.to_Z_bounded. }
  unfold float64. destruct (n <? 0); [|apply Hof].
  rewrite opp_spec. specialize (Hof (Uint63.of_Z (- n))).
  destruct (Prim2SF (PrimFloat.of_uint63 (Uint63.of_Z (- n)))); simpl; congruence.
Qed.

(** A rank that is at least 0 is a number. *)
Lemma fle_r_not_nan (x r : float) : fle x r = true → Prim2SF r ≠ S754_nan.
Proof.
  unfold fle. rewrite FloatAxioms.leb_spec. unfold SFleb. intros Hle Hnan.
  rewrite Hnan in Hle. destruct (Prim2SF x); discriminate Hle.
Qed.

(** Numbers are totally ordered: not [x < y] gives [x >= y]. *)
Lemma not_flt_fge (x y : float) :
  Prim2SF x ≠ S754_nan → Prim2SF y ≠ S754_nan → flt x y = false → fge x y = true.
Proof.
  unfold fge, flt. rewrite FloatAxioms.leb_spec, FloatAxioms.ltb_spec.
  unfold SFleb, SFltb. rewrite (SFcompare_swap (Prim2SF x) (Prim2SF y)).
  intros Hx Hy.
  assert (Hsome : SFcompare (Prim2SF x) (Prim2SF y) ≠ None).
  { destruct (Prim2SF x), (Prim2SF y); simpl; congruence. }
  destruct (SFcompare (Prim2SF x) (Prim2SF y)) as [[| |]|]; simpl; congruence.
Qed.

End FloatFacts.

Section StoreFacts.

Lemma int32_id (z : Z) : is_int32 z → int32 z = z.
Proof. unfold is_int32, MinInt32, MaxInt32, int32. intros Hz. rewrite Z.mod_small; lia. Qed.

Lemma int32_is_int32 (z : Z) : is_int32 (int32 z).
Proof.
  unfold is_int32, MinInt32, MaxInt32, int32.
  pose proof (Z.mod_pos_bound (z + 2147483648) 4294967296). lia.
Qed.

(** int32 arithmetic wraps around, and the conversion to float64 keeps the
    value. *)
Example int32_wraps :
  int32 (MaxInt32 + 1) = MinInt32 ∧ int32 (MinInt32 - 1) = MaxInt32 ∧ int32 (-7) = -7.
Proof. repeat split. Qed.

Example float64_values :
  float64 0 = 0%float ∧ float64 3 = 3%float ∧ float64 (-2) = (-2)%float
  ∧ float64 MinInt32 = (-2147483648)%float.
Proof. repeat split. Qed.

Lemma emptyStore_built :
  emptyStore = {| store.bins := make_map; store.count := 0;
                  store.minIndex := MaxInt32; store.maxIndex := MinInt32 |}.
Proof. reflexivity. Qed.

Lemma store05_built :
  (s ← store.Add emptyStore 0; store.Add s 5) = Returns store05.
Proof. vm_compute. reflexivity. Qed.

Lemma storeNeg_built : store.AddWithCount emptyStore 5 (-1) = Returns storeNeg.
Proof. vm_compute. reflexivity. Qed.

End StoreFacts.

(** ** C6: store-level [AddWithCount] *)

(** C6, the claim fails: a negative count is not rejected. On the empty
    allocated store, [AddWithCount(5, -1)] returns normally (the method has
    no error result and does not panic) and leaves bin 5 and the total count
    at -1. *)
Lemma store_AddWithCount_negative_accepted :
  store.AddWithCount emptyStore 5 (-1) = Returns storeNeg
  ∧ ¬ panicked (store.AddWithCount emptyStore 5 (-1))
  ∧ map_get (store.bins storeNeg) 5 = -1
  ∧ store.TotalCount storeNeg = -1.
Proof.
  split; [apply storeNeg_built|]. split; [|split; reflexivity].
  rewrite storeNeg_built. intros [msg Hmsg]. discriminate Hmsg.
Qed.

(** C6, amended: store-level [AddWithCount(i, n)] has no error result. It is
    a no-op when [n] is zero. Otherwise, for a negative as for a positive
    [n], on a store whose bin map is allocated it adds [n] to the bin at [i]
    and to the total count (int32 arithmetic), leaves the other bins alone,
    raises [maxIndex] to [i] when [i] is larger and lowers [minIndex] to [i]
    when [i] is smaller. *)
Theorem store_AddWithCount_spec (s : store.SparseStore) (i n : Z) :
  (n = 0 → store.AddWithCount s i n = Returns s) ∧
  (n ≠ 0 → store.bins s ≠ None →
   ∃ s', store.AddWithCount s i n = Returns s'
         ∧ map_get (store.bins s') i = int32 (map_get (store.bins s) i + n)
         ∧ (∀ j, j ≠ i → map_get (store.bins s') j = map_get (store.bins s) j)
         ∧ store.TotalCount s' = int32 (store.TotalCount s + n)
         ∧ store.maxIndex s' = Z.max (store.maxIndex s) i
         ∧ store.minIndex s' = Z.min (store.minIndex s) i).
Proof.
  split.
  - intros ->. reflexivity.
  - intros Hn Hbins. unfold store.AddWithCount.
    destruct (Z.eqb_spec n 0) as [?|_]; [contradiction|].
    destruct s as [[g|] c lo hi]; [|contradiction]. simpl.
    eexists. split; [reflexivity|]. simpl. repeat split.
    + rewrite lookup_insert_eq. reflexivity.
    + intros j Hj. by rewrite lookup_insert_ne.
    + destruct (Z.ltb_spec hi i); lia.
    + destruct (Z.ltb_spec i lo); lia.
Qed.

Lemma store_AddWithCount_spec_witness :
  ∃ s', store.AddWithCount emptyStore 5 (-1) = Returns s'
        ∧ map_get (store.bins s') 5 = int32 (map_get (store.bins emptyStore) 5 + -1)
        ∧ (∀ j, j ≠ 5 → map_get (store.bins s') j = map_get (store.bins emptyStore) j)
        ∧ store.TotalCount s' = int32 (store.TotalCount emptyStore + -1)
        ∧ store.maxIndex s' = Z.max (store.maxIndex emptyStore) 5
        ∧ store.minIndex s' = Z.min (store.minIndex emptyStore) 5.
Proof.
  apply (proj2 (store_AddWithCount_spec emptyStore 5 (-1))); [lia | discriminate].
Defined.

(** ** C8: insertion into the store returned by [NewSparseStore] *)

(** C8, the code at the failing input: [NewSparseStore] leaves the bin map
    nil, so every insertion of a non-zero count into the fresh store panics
    on the map assignment; only a zero count returns. In particular
    [Add(i)] panics for every [i]. *)
Theorem NewSparseStore_insert_panics (i n : Z) :
  store.bins store.NewSparseStore = None
  ∧ store.Add store.NewSparseStore i = Panics nil_map_write
  ∧ store.AddWithCount store.NewSparseStore i n
    = if n =? 0 then Returns store.NewSparseStore else Panics nil_map_write.
Proof.
  split; [reflexivity|]. split; [reflexivity|].
  unfold store.AddWithCount. destruct (n =? 0); reflexivity.
Qed.

(** ** C1: [KeyAtRank] *)

(** C1, the code at the failing input. The key slice starts with [len(bins)]
    zeros, so a store holding bin 0 counts that bin once more per bin. With
    bins [{0: 1, 5: 1}] the key at rank 1 is 5, and the key at rank 2 (the
    total count) is [maxIndex = 5]; [KeyAtRank] returns 0 for both. *)
Theorem KeyAtRank_phantom_zero_keys :
  merge_sort Z.le (store.rank_keys store05) = [0; 0; 0; 5]
  ∧ store.KeyAtRank store05 1 = 0
  ∧ IsKeyAtRank store05 1 5 ∧ ¬ IsKeyAtRank store05 1 0
  ∧ store.KeyAtRank store05 2 = 0
  ∧ IsKeyAtRank store05 2 5 ∧ ¬ IsKeyAtRank store05 2 0.
Proof.
  assert (Hkeys : bin_indices store05 = [5; 0]) by (vm_compute; reflexivity).
  assert (Hc0 : cumulativeCount store05 0 = 1) by (vm_compute; reflexivity).
  assert (Hc5 : cumulativeCount store05 5 = 2) by (vm_compute; reflexivity).
  split; [vm_compute; reflexivity|].
  split; [vm_compute; reflexivity|].
  split.
  { left. rewrite Hkeys, Hc5. split; [set_solver|]. split; [vm_compute; reflexivity|].
    intros j Hj. apply elem_of_cons in Hj as [->|Hj]; [lia|].
    apply list_elem_of_singleton in Hj as ->. rewrite Hc0. vm_compute. discriminate. }
  split.
  { intros [(_ & Hex & _)|[Hge _]].
    - rewrite Hc0 in Hex. vm_compute in Hex. discriminate.
    - vm_compute in Hge. discriminate. }
  split; [vm_compute; reflexivity|].
  split.
  { right. split; vm_compute; reflexivity. }
  intros [(_ & Hex & _)|[_ Hmax]].
  - rewrite Hc0 in Hex. vm_compute in Hex. discriminate.
  - vm_compute in Hmax. discriminate.
Qed.

(** ** [KeyAtRank] on a store without a bin at index 0 *)

Section RankFacts.

Context (s : store.SparseStore) (r : float).

Lemma bins_sum_app (l1 l2 : list Z) :
  bins_sum s (l1 ++ l2) = bins_sum s l1 + bins_sum s l2.
Proof. induction l1 as [|k l1 IH]; simpl; lia. Qed.

Lemma bins_sum_Permutation (l1 l2 : list Z) :
  l1 ≡ₚ l2 → bins_sum s l1 = bins_sum s l2.
Proof. induction 1; simpl; lia. Qed.

Lemma map_range_get (k v : Z) :
  (k, v) ∈ map_range (store.bins s) → map_get (store.bins s) k = v.
Proof.
  unfold map_range, map_get. destruct (store.bins s) as [g|].
  - intros Hin. apply elem_of_map_to_list in Hin. rewrite Hin. reflexivity.
  - intros Hin. apply elem_of_nil in Hin. contradiction.
Qed.

Lemma bins_sum_filter_le (x : Z) (l : list (Z * Z)) :
  (∀ kv, kv ∈ l → map_get (store.bins s) kv.1 = kv.2) →
  bins_sum s (filter (λ k, k ≤ x) l.*1)
  = foldr Z.add 0 (filter (λ kv : Z * Z, kv.1 ≤ x) l).*2.
Proof.
  induction l as [|[k v] l IH]; intros Hl; [reflexivity|].
  assert (IH' := IH (λ kv Hkv, Hl kv (list_elem_of_further _ _ _ Hkv))).
  assert (Hk := Hl (k, v) (list_elem_of_here _ _)). simpl in Hk.
  rewrite fmap_cons, !filter_cons. simpl.
  destruct (decide (k ≤ x)); simpl; rewrite IH'; [rewrite Hk|]; reflexivity.
Qed.

Lemma cumulativeCount_bins_sum (x : Z) :
  cumulativeCount s x = bins_sum s (filter (λ k, k ≤ x) (bin_indices s)).
Proof.
  unfold cumulativeCount, bin_indices. symmetry. apply bins_sum_filter_le.
  intros [k v] Hkv. apply map_range_get, Hkv.
Qed.

Lemma bins_sum_values (l : list (Z * Z)) :
  (∀ kv, kv ∈ l → map_get (store.bins s) kv.1 = kv.2) →
  foldr Z.add 0 l.*2 = bins_sum s l.*1.
Proof.
  induction l as [|[k v] l IH]; intros Hl; [reflexivity|].
  assert (IH' := IH (λ kv Hkv, Hl kv (list_elem_of_further _ _ _ Hkv))).
  assert (Hk := Hl (k, v) (list_elem_of_here _ _)). simpl in Hk.
  rewrite !fmap_cons. simpl. rewrite Hk. f_equal. exact IH'.
Qed.

Lemma bins_total_bins_sum : bins_total s = bins_sum s (bin_indices s).
Proof.
  unfold bins_total, bin_indices. apply bins_sum_values.
  intros [k v] Hkv. apply map_range_get, Hkv.
Qed.

Lemma bin_indices_NoDup : NoDup (bin_indices s).
Proof.
  unfold bin_indices, map_range. destruct (store.bins s).
  - apply NoDup_fst_map_to_list.
  - apply NoDup_nil_2.
Qed.

Lemma filter_nonzero_replicate (n : nat) :
  filter (λ k : Z, k ≠ 0) (replicate n 0) = [].
Proof.
  induction n as [|n IH]; [reflexivity|]. simpl.
  rewrite filter_cons. destruct (decide (0 ≠ 0)); [contradiction | exact IH].
Qed.

Lemma filter_all {A : Type} (P : A → Prop) `{∀ x, Decision (P x)} (l : list A) :
  (∀ x, x ∈ l → P x) → filter P l = l.
Proof.
  induction l as [|x l IH]; intros Hl; [reflexivity|].
  rewrite filter_cons. destruct (decide (P x)) as [_|Hn].
  - rewrite IH; [reflexivity|]. intros y Hy. apply Hl, list_elem_of_further, Hy.
  - exfalso. apply Hn, Hl, list_elem_of_here.
Qed.

Lemma filter_none {A : Type} (P : A → Prop) `{∀ x, Decision (P x)} (l : list A) :
  (∀ x, x ∈ l → ¬ P x) → filter P l = [].
Proof.
  induction l as [|x l IH]; intros Hl; [reflexivity|].
  rewrite filter_cons. destruct (decide (P x)) as [Hp|_].
  - exfalso. exact (Hl x (list_elem_of_here _ _) Hp).
  - apply IH. intros y Hy. apply Hl, list_elem_of_further, Hy.
Qed.

Lemma StronglySorted_filter {A : Type} (R : relation A) (P : A → Prop)
    `{∀ x, Decision (P x)} (l : list A) :
  StronglySorted R l → StronglySorted R (filter P l).
Proof.
  induction 1 as [|x l Hs IH Hall]; [constructor|].
  rewrite filter_cons. destruct (decide (P x)); [|exact IH].
  constructor; [exact IH|].
  apply Forall_forall. intros y Hy.
  apply list_elem_of_filter in Hy as [_ Hy].
  rewrite Forall_forall in Hall. apply Hall, Hy.
Qed.

Hypothesis no_bin_zero : 0 ∉ bin_indices s.

Lemma ascending_keys_Permutation : ascending_keys s ≡ₚ bin_indices s.
Proof.
  unfold ascending_keys.
  rewrite (merge_sort_Permutation Z.le (store.rank_keys s)).
  unfold store.rank_keys. rewrite filter_app, filter_nonzero_replicate. simpl.
  fold (bin_indices s). rewrite filter_all; [reflexivity|].
  intros x Hx ->. exact (no_bin_zero Hx).
Qed.

Lemma ascending_keys_sorted : StronglySorted Z.le (ascending_keys s).
Proof.
  apply StronglySorted_filter, StronglySorted_merge_sort.
  - intros x y z. apply Z.le_trans.
  - intros x y. apply Z.le_ge_cases.
Qed.

Lemma ascending_keys_NoDup : NoDup (ascending_keys s).
Proof. rewrite ascending_keys_Permutation. apply bin_indices_NoDup. Qed.

Lemma get_zero : map_get (store.bins s) 0 = 0.
Proof.
  unfold map_get. destruct (store.bins s) as [g|] eqn:Hb; [|reflexivity].
  destruct (g !! 0) as [v|] eqn:Hg; [|reflexivity].
  exfalso. apply no_bin_zero. unfold bin_indices, map_range. rewrite Hb.
  apply list_elem_of_fmap. exists (0, v). split; [reflexivity|].
  apply elem_of_map_to_list, Hg.
Qed.

(** The leading zeros of the key slice change nothing while the running
    total does not exceed the rank. *)
Lemma rank_scan_skip_zeros (keys : list Z) (n : Z) :
  is_int32 n → fgt (float64 n) r = false →
  store.rank_scan s r n keys = store.rank_scan s r n (filter (λ k, k ≠ 0) keys).
Proof.
  revert n. induction keys as [|k keys IH]; intros n Hn Hr; [reflexivity|].
  rewrite filter_cons. destruct (decide (k ≠ 0)) as [Hk|Hk].
  - simpl.
    destruct (fgt (float64 (int32 (n + map_get (store.bins s) k))) r) eqn:Hr';
      [reflexivity|].
    apply IH; [apply int32_is_int32 | exact Hr'].
  - assert (k = 0) as -> by lia. simpl.
    rewrite get_zero, Z.add_0_r, (int32_id n Hn), Hr. apply IH; assumption.
Qed.

(** In the sorted, duplicate-free keys, the keys up to [x] are the prefix
    that ends with [x]. *)
Lemma prefix_is_filter_le (P Q : list Z) (x : Z) :
  ascending_keys s = P ++ x :: Q →
  filter (λ k, k ≤ x) (ascending_keys s) = P ++ [x].
Proof.
  intros Hsplit. pose proof ascending_keys_sorted as Hs.
  pose proof ascending_keys_NoDup as Hnd. rewrite Hsplit in Hs, Hnd |- *.
  rewrite filter_app, filter_cons.
  destruct (decide (x ≤ x)) as [_|]; [|lia].
  apply NoDup_app in Hnd as (_ & _ & Hnd). apply NoDup_cons in Hnd as [Hx _].
  rewrite filter_all, filter_none; [reflexivity| |].
  - intros y Hy Hle.
    assert (x ≤ y).
    { apply StronglySorted_app_1_r in Hs. apply StronglySorted_inv in Hs as [_ Hall].
      rewrite Forall_forall in Hall. apply Hall, Hy. }
    assert (y = x) as -> by lia. contradiction.
  - intros y Hy.
    apply (StronglySorted_app_1_elem_of Z.le P (x :: Q) y x Hs Hy), list_elem_of_here.
Qed.

Lemma prefix_sum_is_cumulativeCount (P Q : list Z) (x : Z) :
  ascending_keys s = P ++ x :: Q →
  bins_sum s P + map_get (store.bins s) x = cumulativeCount s x.
Proof.
  intros Hsplit. rewrite cumulativeCount_bins_sum.
  rewrite <- (bins_sum_Permutation _ _
                (filter_Permutation (λ k, k ≤ x) _ _ ascending_keys_Permutation)).
  rewrite (prefix_is_filter_le P Q x Hsplit), bins_sum_app. simpl. lia.
Qed.

Hypothesis no_overflow : ∀ k, k ∈ bin_indices s → is_int32 (cumulativeCount s k).

(** The scan over the proper keys: [P] is the part already visited. *)
Lemma rank_scan_ascending (P Q : list Z) :
  ascending_keys s = P ++ Q →
  exceeds (bins_sum s P) r = false →
  (∀ j, j ∈ P → exceeds (cumulativeCount s j) r = false) →
  match store.rank_scan s r (bins_sum s P) Q with
  | Some k =>
      k ∈ bin_indices s ∧ exceeds (cumulativeCount s k) r = true
      ∧ ∀ j, j ∈ bin_indices s → exceeds (cumulativeCount s j) r = true → k ≤ j
  | None =>
      exceeds (bins_total s) r = false
  end.
Proof.
  revert P. induction Q as [|x Q IH]; intros P Hsplit Hsum Hbelow.
  - simpl. rewrite app_nil_r in Hsplit.
    rewrite bins_total_bins_sum, <- (bins_sum_Permutation _ _ ascending_keys_Permutation).
    rewrite Hsplit. exact Hsum.
  - assert (Hx : x ∈ bin_indices s).
    { rewrite <- ascending_keys_Permutation, Hsplit. set_solver. }
    pose proof (prefix_sum_is_cumulativeCount P Q x Hsplit) as Hcum.
    simpl. rewrite Hcum, (int32_id _ (no_overflow x Hx)).
    fold (exceeds (cumulativeCount s x) r).
    destruct (exceeds (cumulativeCount s x) r) eqn:Hex.
    + split; [exact Hx|]. split; [exact Hex|].
      intros j Hj Hjex. rewrite <- ascending_keys_Permutation, Hsplit in Hj.
      apply elem_of_app in Hj as [Hj|Hj].
      * rewrite (Hbelow j Hj) in Hjex. discriminate.
      * pose proof ascending_keys_sorted as Hs. rewrite Hsplit in Hs.
        apply StronglySorted_app_1_r, StronglySorted_inv in Hs as [_ Hall].
        apply elem_of_cons in Hj as [->|Hj]; [lia|].
        rewrite Forall_forall in Hall. apply Hall, Hj.
    + assert (Hsum' : bins_sum s (P ++ [x]) = cumulativeCount s x)
        by (rewrite bins_sum_app; simpl; lia).
      rewrite <- Hsum'. apply IH.
      * rewrite Hsplit, <- app_assoc. reflexivity.
      * rewrite Hsum'. exact Hex.
      * intros j Hj. apply elem_of_app in Hj as [Hj|Hj]; [apply Hbelow, Hj|].
        apply list_elem_of_singleton in Hj as ->. exact Hex.
Qed.

End RankFacts.

(** On a store that has no bin at index 0, whose recorded count is the sum
    of its bins and whose cumulative counts fit an int32, [KeyAtRank]
    returns for every rank [r >= 0] the key that C1 describes. *)
Theorem KeyAtRank_without_bin_zero (s : store.SparseStore) (r : float) :
  0 ∉ bin_indices s →
  (∀ k, k ∈ bin_indices s → is_int32 (cumulativeCount s k)) →
  store.TotalCount s = bins_total s →
  fle 0 r = true →
  IsKeyAtRank s r (store.KeyAtRank s r).
Proof.
  intros Hzero Hfit Hcount Hr.
  assert (Hr0 : fgt (float64 0) r = false) by (apply (fge_not_flt r 0), Hr).
  unfold store.KeyAtRank. cbv zeta.
  rewrite (rank_scan_skip_zeros s r Hzero _ 0);
    [|unfold is_int32, MinInt32, MaxInt32; lia|exact Hr0].
  fold (ascending_keys s).
  pose proof (rank_scan_ascending s r Hzero Hfit [] (ascending_keys s) eq_refl Hr0) as Hscan.
  simpl in Hscan.
  destruct (store.rank_scan s r 0 (ascending_keys s)) as [k|].
  - left. apply Hscan. intros j Hj. apply elem_of_nil in Hj. contradiction.
  - right. split; [|reflexivity]. rewrite Hcount.
    apply not_flt_fge.
    + apply (fle_r_not_nan 0), Hr.
    + apply float64_not_nan.
    + apply Hscan. intros j Hj. apply elem_of_nil in Hj. contradiction.
Qed.

Lemma storeNoZero_built :
  (s ← store.AddWithCount emptyStore (-3) 2; store.Add s 5) = Returns storeNoZero.
Proof. vm_compute. reflexivity. Qed.

(** The theorem at work: in the store with bins [{-3: 2, 5: 1}] the key at
    rank 2 is 5, and [KeyAtRank(2)] returns it. *)
Lemma KeyAtRank_without_bin_zero_example :
  store.KeyAtRank storeNoZero 2 = 5 ∧ IsKeyAtRank storeNoZero 2 5.
Proof.
  assert (Hkeys : bin_indices storeNoZero = [-3; 5]) by (vm_compute; reflexivity).
  split; [vm_compute; reflexivity|].
  change (IsKeyAtRank storeNoZero 2 (store.KeyAtRank storeNoZero 2)).
  apply KeyAtRank_without_bin_zero.
  - rewrite Hkeys. intros Hin.
    apply elem_of_cons in Hin as [Hin|Hin]; [discriminate Hin|].
    apply list_elem_of_singleton in Hin. discriminate Hin.
  - intros k. rewrite Hkeys. intros Hk.
    apply elem_of_cons in Hk as [->|Hk];
      [|apply list_elem_of_singleton in Hk as ->]; vm_compute; split; discriminate.
  - reflexivity.
  - reflexivity.
Defined.

(* ===================================================================== *)
(** * Properties of the sketch *)
(* ===================================================================== *)


Section SketchBuilt.

Lemma sketchZero_built : ddsketch.Add sketchNew 0 = Returns (sketchZero, None).
Proof. vm_compute. reflexivity. Qed.

Lemma sketchFive_built : ddsketch.Add sketchAlloc 5 = Returns (sketchFive, None).
Proof. vm_compute. reflexivity. Qed.

Lemma sketchNaN_built : ddsketch.Add sketchAlloc NaN = Returns (sketchNaN, None).
Proof. vm_compute. reflexivity. Qed.

End SketchBuilt.

(** ** C9: a NaN value is counted as a zero *)

(** C9: for every sketch and every count [c >= 0], [AddWithCount(NaN, c)]
    returns no error, adds [c] to [zeroCount] and leaves the store alone:
    none of [NaN < 0], [NaN > MaxIndexableValue()] and
    [NaN > MinIndexableValue()] holds. *)
Theorem AddWithCount_NaN_counts_zero {M : Type} `{mapping.IndexMapping M}
    (s : ddsketch.DDSketch M) (c : Z) :
  0 ≤ c →
  flt NaN 0 = false
  ∧ fgt NaN (mapping.MaxIndexableValue (ddsketch.IndexMapping s)) = false
  ∧ fgt NaN (mapping.MinIndexableValue (ddsketch.IndexMapping s)) = false
  ∧ ddsketch.AddWithCount s NaN c
    = Returns ({| ddsketch.IndexMapping := ddsketch.IndexMapping s;
                  ddsketch.store := ddsketch.store s;
                  ddsketch.zeroCount := int32 (ddsketch.zeroCount s + c) |}, None).
Proof.
  intros Hc. split; [apply flt_NaN_l|]. split; [apply fgt_NaN_l|].
  split; [apply fgt_NaN_l|].
  unfold ddsketch.AddWithCount.
  rewrite flt_NaN_l, !fgt_NaN_l. simpl.
  destruct (Z.ltb_spec c 0); [lia|]. reflexivity.
Qed.

Lemma AddWithCount_NaN_counts_zero_witness :
  flt NaN 0 = false
  ∧ fgt NaN (mapping.MaxIndexableValue (ddsketch.IndexMapping sketchAlloc)) = false
  ∧ fgt NaN (mapping.MinIndexableValue (ddsketch.IndexMapping sketchAlloc)) = false
  ∧ ddsketch.AddWithCount sketchAlloc NaN 3
    = Returns ({| ddsketch.IndexMapping := ddsketch.IndexMapping sketchAlloc;
                  ddsketch.store := ddsketch.store sketchAlloc;
                  ddsketch.zeroCount := int32 (ddsketch.zeroCount sketchAlloc + 3) |}, None).
Proof. apply (AddWithCount_NaN_counts_zero sketchAlloc 3). lia. Defined.

(** ** C3: the sketch's [AddWithCount] *)

(** C3, the claim fails at NaN: [NaN <= MinIndexableValue()] is false, so
    the claim sends the value to the store, while the code counts it as a
    zero and leaves the store empty. *)
Lemma AddWithCount_NaN_not_stored :
  fle NaN (mapping.MinIndexableValue (ddsketch.IndexMapping sketchAlloc)) = false
  ∧ succeeds_with (ddsketch.AddWithCount sketchAlloc NaN 1) sketchNaN
  ∧ ddsketch.zeroCount sketchNaN = 1
  ∧ store.TotalCount (ddsketch.store sketchNaN) = 0
  ∧ ¬ success_clause_le sketchAlloc NaN 1.
Proof.
  split; [reflexivity|]. split; [exact sketchNaN_built|].
  split; [reflexivity|]. split; [reflexivity|].
  intros Hclaim. specialize (Hclaim sketchNaN sketchNaN_built).
  change (fle NaN (mapping.MinIndexableValue (ddsketch.IndexMapping sketchAlloc)))
    with false in Hclaim.
  destruct Hclaim as (_ & Hzero & _). vm_compute in Hzero. discriminate Hzero.
Qed.

(** The three-way branch of the sketch's [AddWithCount]. *)
Lemma sketch_AddWithCount_cases {M : Type} `{mapping.IndexMapping M}
    (s : ddsketch.DDSketch M) (v : float) (c : Z) :
  ((∃ s', fails_with (ddsketch.AddWithCount s v c) s') ↔ rejects s v c)
  ∧ (∀ s', fails_with (ddsketch.AddWithCount s v c) s' → s' = s)
  ∧ (¬ rejects s v c →
     fgt v (mapping.MinIndexableValue (ddsketch.IndexMapping s)) = true →
     ddsketch.AddWithCount s v c
     = (st ← store.AddWithCount (ddsketch.store s)
               (mapping.Index (ddsketch.IndexMapping s) v) c;
        Returns ({| ddsketch.IndexMapping := ddsketch.IndexMapping s;
                    ddsketch.store := st;
                    ddsketch.zeroCount := ddsketch.zeroCount s |}, None)))
  ∧ (¬ rejects s v c →
     fgt v (mapping.MinIndexableValue (ddsketch.IndexMapping s)) = false →
     ∃ s', succeeds_with (ddsketch.AddWithCount s v c) s' ∧ zero_counted s s' c).
Proof.
  unfold rejects, fails_with, succeeds_with, zero_counted, ddsketch.AddWithCount.
  destruct (flt v 0) eqn:Hlo; simpl.
  { split; [split; [tauto | intros _; eauto]|].
    split; [intros s' [e He]; congruence|]. split; intros Hr; exfalso; tauto. }
  destruct (fgt v (mapping.MaxIndexableValue (ddsketch.IndexMapping s))) eqn:Hhi; simpl.
  { split; [split; [tauto | intros _; eauto]|].
    split; [intros s' [e He]; congruence|]. split; intros Hr; exfalso; tauto. }
  destruct (Z.ltb_spec c 0) as [Hc|Hc].
  { split; [split; [tauto | intros _; eauto]|].
    split; [intros s' [e He]; congruence|]. split; intros Hr; exfalso; tauto. }
  assert (Hnot : ¬ (false = true ∨ false = true ∨ c < 0))
    by (intros [?|[?|?]]; [done|done|lia]).
  destruct (fgt v (mapping.MinIndexableValue (ddsketch.IndexMapping s))) eqn:Hmin.
  - split.
    { split; [|tauto]. intros [s' [e He]].
      destruct (store.AddWithCount _ _ _); simpl in He; discriminate He. }
    split.
    { intros s' [e He]. destruct (store.AddWithCount _ _ _); simpl in He; discriminate He. }
    split; [reflexivity | discriminate].
  - split; [split; [intros [s' [e He]]; discriminate He | tauto]|].
    split; [intros s' [e He]; discriminate He|].
    split; [discriminate | eauto].
Qed.

(** C3, amended: [AddWithCount(v, c)] returns an error if and only if
    [v < 0], [v > MaxIndexableValue()] or [c < 0], and then the sketch is
    unchanged. Otherwise, if [v > MinIndexableValue()] it hands [c] to the
    store at index [mapping.Index(v)] and returns no error once the store
    returns; if not (that is [v <= MinIndexableValue()], or [v] is NaN) it
    adds [c] to [zeroCount]. *)
Theorem sketch_AddWithCount_spec {M : Type} `{mapping.IndexMapping M}
    (s : ddsketch.DDSketch M) (v : float) (c : Z) :
  let min := mapping.MinIndexableValue (ddsketch.IndexMapping s) in
  ((∃ s', fails_with (ddsketch.AddWithCount s v c) s') ↔ rejects s v c)
  ∧ (∀ s', fails_with (ddsketch.AddWithCount s v c) s' → s' = s)
  ∧ (¬ rejects s v c → fgt v min = true →
     ddsketch.AddWithCount s v c
     = (st ← store.AddWithCount (ddsketch.store s)
               (mapping.Index (ddsketch.IndexMapping s) v) c;
        Returns ({| ddsketch.IndexMapping := ddsketch.IndexMapping s;
                    ddsketch.store := st;
                    ddsketch.zeroCount := ddsketch.zeroCount s |}, None)))
  ∧ (¬ rejects s v c → fgt v min = false →
     ∃ s', succeeds_with (ddsketch.AddWithCount s v c) s' ∧ zero_counted s s' c)
  ∧ (¬ rejects s v c → fle v min = true →
     ∃ s', succeeds_with (ddsketch.AddWithCount s v c) s' ∧ zero_counted s s' c)
  ∧ (¬ rejects s v c → v = NaN →
     ∃ s', succeeds_with (ddsketch.AddWithCount s v c) s' ∧ zero_counted s s' c).
Proof.
  intros min. destruct (sketch_AddWithCount_cases s v c) as (Herr & Hsame & Hstore & Hzero).
  split; [exact Herr|]. split; [exact Hsame|]. split; [exact Hstore|].
  split; [exact Hzero|]. split.
  - intros Hok Hle. apply (Hzero Hok). apply (fge_not_flt min v), Hle.
  - intros Hok ->. apply (Hzero Hok). apply fgt_NaN_l.
Qed.

Lemma sketch_AddWithCount_spec_witness :
  ddsketch.AddWithCount sketchAlloc 5 1
  = (st ← store.AddWithCount (ddsketch.store sketchAlloc)
            (mapping.Index (ddsketch.IndexMapping sketchAlloc) 5) 1;
     Returns ({| ddsketch.IndexMapping := ddsketch.IndexMapping sketchAlloc;
                 ddsketch.store := st;
                 ddsketch.zeroCount := ddsketch.zeroCount sketchAlloc |}, None))
  ∧ ∃ s', succeeds_with (ddsketch.AddWithCount sketchAlloc 0.25 1) s'
          ∧ zero_counted sketchAlloc s' 1.
Proof.
  split.
  - apply (proj1 (proj2 (proj2 (sketch_AddWithCount_spec sketchAlloc 5 1)))).
    + unfold rejects. intros [Hlt|[Hgt|Hc]]; [discriminate Hlt | discriminate Hgt | lia].
    + reflexivity.
  - apply (proj1 (proj2 (proj2 (proj2 (proj2
             (sketch_AddWithCount_spec sketchAlloc 0.25 1)))))).
    + unfold rejects. intros [Hlt|[Hgt|Hc]]; [discriminate Hlt | discriminate Hgt | lia].
    + reflexivity.
Defined.

(** ** C2: [Copy] *)

Section CopyFacts.

Lemma foldl_insert_list_to_map (l : list (Z * Z)) :
  foldl (λ (b : gmap Z Z) kv, <[kv.1 := kv.2]> b) ∅ l = list_to_map (rev l).
Proof.
  rewrite <- (rev_involutive l) at 1. generalize (rev l) as r. intros r.
  induction r as [|[k v] r IH]; [reflexivity|].
  simpl. rewrite foldl_app. simpl. rewrite IH. reflexivity.
Qed.

(** The store's [Copy] is a deep copy: a fresh, allocated map with the
    bins of the original, and the same count and extreme indices. *)
Lemma store_Copy_deep (s : store.SparseStore) :
  store.bins (store.Copy s) = Some (default ∅ (store.bins s))
  ∧ (∀ k, map_get (store.bins (store.Copy s)) k = map_get (store.bins s) k)
  ∧ store.count (store.Copy s) = store.count s
  ∧ store.minIndex (store.Copy s) = store.minIndex s
  ∧ store.maxIndex (store.Copy s) = store.maxIndex s.
Proof.
  assert (Hb : store.bins (store.Copy s) = Some (default ∅ (store.bins s))).
  { unfold store.Copy. simpl. f_equal. rewrite foldl_insert_list_to_map.
    destruct (store.bins s) as [g|]; simpl; [|reflexivity].
    rewrite <- (list_to_map_to_list g) at 2.
    symmetry. apply list_to_map_proper.
    - apply NoDup_fst_map_to_list.
    - apply Permutation_rev.
  }
  split; [exact Hb|]. split; [|repeat split].
  intros k. rewrite Hb. destruct (store.bins s); reflexivity.
Qed.

End CopyFacts.

(** C2, the code at the failing input. For every sketch, [Copy] shares the
    mapping and copies the store, and it sets [zeroCount] to 0 instead of
    the original's value. For the sketch that holds one zero value,
    [GetCount()] is 1 and [Copy().GetCount()] is 0. *)
Theorem Copy_resets_zeroCount :
  (∀ (M : Type) (s : ddsketch.DDSketch M),
     ddsketch.IndexMapping (ddsketch.Copy s) = ddsketch.IndexMapping s
     ∧ ddsketch.store (ddsketch.Copy s) = store.Copy (ddsketch.store s)
     ∧ ddsketch.zeroCount (ddsketch.Copy s) = 0)
  ∧ ddsketch.zeroCount sketchZero = 1
  ∧ ddsketch.GetCount sketchZero = 1
  ∧ ddsketch.zeroCount (ddsketch.Copy sketchZero) = 0
  ∧ ddsketch.GetCount (ddsketch.Copy sketchZero) = 0.
Proof.
  split; [intros M s; repeat split|]. repeat split.
Qed.

(** ** C4: [GetValueAtQuantile] *)

(** C4, the claim fails at a NaN quantile: NaN lies outside the interval
    from 0 to 1 and the sketch is not empty, yet no error is returned,
    where the comment on the method promises a non-nil error for an
    invalid quantile. *)
Lemma GetValueAtQuantile_NaN_accepted :
  outside_unit_interval NaN = true
  ∧ ddsketch.GetCount sketchZero = 1
  ∧ (ddsketch.GetValueAtQuantile sketchZero NaN).2 = None.
Proof. repeat split. Qed.

(** Emptiness in the quantile query is [GetCount() == 0], not [IsEmpty()]:
    the sketch built over a store of count -1 that then counts one zero is
    not [IsEmpty()], and its query fails for want of an element. *)
Lemma GetValueAtQuantile_empty_is_GetCount_zero :
  ddsketch.Add (ddsketch.NewDDSketch unit1000 storeNeg) 0 = Returns (sketchCancel, None)
  ∧ ddsketch.IsEmpty sketchCancel = false
  ∧ ddsketch.GetCount sketchCancel = 0
  ∧ ddsketch.GetValueAtQuantile sketchCancel 0.5
    = (NaN, Some "no such element exists"%string).
Proof. repeat split. Qed.

(** X24: [GetValueAtQuantile(q)] returns an error if and only if
    [q < 0], [q > 1] (a NaN quantile passes both tests) or [GetCount()] is
    0. Otherwise, with [rank = q * (GetCount() - 1)], it returns 0 when
    [rank < zeroCount] and [Value(store.KeyAtRank(rank - zeroCount))] when
    not, in particular when [rank >= zeroCount]. *)
Theorem GetValueAtQuantile_spec {M : Type} `{mapping.IndexMapping M}
    (s : ddsketch.DDSketch M) (q : float) :
  let rank := PrimFloat.mul q (float64 (int32 (ddsketch.GetCount s - 1))) in
  let zero := float64 (ddsketch.zeroCount s) in
  let stored :=
    mapping.Value (ddsketch.IndexMapping s)
      (store.KeyAtRank (ddsketch.store s) (PrimFloat.sub rank zero)) in
  ((ddsketch.GetValueAtQuantile s q).2 ≠ None
   ↔ flt q 0 = true ∨ fgt q 1 = true ∨ ddsketch.GetCount s = 0)
  ∧ (flt q 0 = false → fgt q 1 = false → ddsketch.GetCount s ≠ 0 →
     (flt rank zero = true → ddsketch.GetValueAtQuantile s q = (0%float, None))
     ∧ (flt rank zero = false → ddsketch.GetValueAtQuantile s q = (stored, None))
     ∧ (fge rank zero = true → ddsketch.GetValueAtQuantile s q = (stored, None))).
Proof.
  intros rank zero stored. unfold ddsketch.GetValueAtQuantile.
  destruct (flt q 0) eqn:Hlo; simpl.
  { split; [split; [tauto | discriminate]|]. discriminate. }
  destruct (fgt q 1) eqn:Hhi; simpl.
  { split; [split; [tauto | discriminate]|]. discriminate. }
  destruct (Z.eqb_spec (ddsketch.GetCount s) 0) as [Hz|Hz]; simpl.
  { split; [split; [tauto | discriminate]|]. tauto. }
  fold rank zero stored.
  assert (Hcase : (flt rank zero = true →
                   (if flt rank zero then (0%float, None) else (stored, None))
                   = (0%float, @None string))
                  ∧ (flt rank zero = false →
                     (if flt rank zero then (0%float, None) else (stored, None))
                     = (stored, @None string))).
  { split; intros ->; reflexivity. }
  destruct Hcase as [Hlt Hge].
  split.
  - split; [|intros [?|[?|?]]; congruence].
    intros Herr. exfalso. apply Herr. destruct (flt rank zero); reflexivity.
  - intros _ _ _. split; [exact Hlt|]. split; [exact Hge|].
    intros Hfge. apply Hge, fge_not_flt, Hfge.
Qed.

Lemma GetValueAtQuantile_spec_witness :
  ddsketch.GetValueAtQuantile sketchFive 0.5 = (5%float, None).
Proof.
  refine (proj2 (proj2 (proj2 (GetValueAtQuantile_spec sketchFive 0.5) _ _ _)) _);
    [reflexivity | reflexivity | vm_compute; discriminate | reflexivity].
Defined.

(** ** C5: [MergeWith] *)

Section MergeFacts.

Lemma int32_add_l (a b : Z) : int32 (int32 a + b) = int32 (a + b).
Proof.
  unfold int32.
  replace (((a + 2147483648) `mod` 4294967296 - 2147483648 + b + 2147483648))
    with ((a + 2147483648) `mod` 4294967296 + b) by lia.
  rewrite Zplus_mod_idemp_l. f_equal. f_equal. lia.
Qed.

Lemma int32_add_r (a b : Z) : int32 (a + int32 b) = int32 (a + b).
Proof. rewrite (Z.add_comm a), int32_add_l. f_equal. lia. Qed.

(** Writing into an allocated map never panics. *)
Lemma merge_bins_allocated (kvs : list (Z * Z)) (g : gmap Z Z) :
  ∃ g', store.merge_bins (Some g) kvs = Returns (Some g').
Proof.
  revert g. induction kvs as [|[k v] kvs IH]; intros g; simpl; [eauto|].
  apply IH.
Qed.

(** The bin-wise sum: after the loop the bin at [k] holds the old value
    plus the value merged at [k]. *)
Lemma merge_bins_get (kvs : list (Z * Z)) (g g' : gmap Z Z) (k : Z) :
  NoDup kvs.*1 →
  store.merge_bins (Some g) kvs = Returns (Some g') →
  map_get (Some g') k
  = match list_to_map (M := gmap Z Z) kvs !! k with
    | Some v => int32 (map_get (Some g) k + v)
    | None => map_get (Some g) k
    end.
Proof.
  revert g. induction kvs as [|[j v] kvs IH]; intros g Hnd Hm; simpl in *.
  - injection Hm as <-. rewrite lookup_empty. reflexivity.
  - apply NoDup_cons in Hnd as [Hj Hnd].
    rewrite (IH _ Hnd Hm). unfold map_get.
    destruct (decide (j = k)) as [->|Hne].
    + rewrite lookup_insert_eq.
      rewrite (not_elem_of_list_to_map_1 kvs k Hj).
      rewrite lookup_insert_eq. reflexivity.
    + rewrite !(lookup_insert_ne _ j k) by done. reflexivity.
Qed.

Context {M : Type} `{mapping.IndexMapping M}.

(** X16: when the receiver's bin map is allocated and the mappings are equal,
    [MergeWith] succeeds and the counts add up in int32 arithmetic. *)
Lemma MergeWith_allocated_count (a b : ddsketch.DDSketch M) :
  mapping.Equals (ddsketch.IndexMapping a) (ddsketch.IndexMapping b) = true →
  store.bins (ddsketch.store a) ≠ None →
  ∃ a', succeeds_with (ddsketch.MergeWith a b) a'
        ∧ ddsketch.GetCount a' = int32 (ddsketch.GetCount a + ddsketch.GetCount b).
Proof.
  intros Heq Hbins. unfold succeeds_with, ddsketch.MergeWith, store.MergeWith.
  rewrite Heq. simpl.
  destruct a as [ma [[ga|] ca loa hia] za]; [|contradiction].
  destruct b as [mb [gb cb lob hib] zb]. unfold store.IsEmpty. simpl.
  destruct (Z.eqb_spec cb 0) as [->|Hcb]; simpl.
  - eexists. split; [reflexivity|]. unfold ddsketch.GetCount, store.TotalCount. simpl.
    rewrite int32_add_l, int32_add_l, int32_add_r. f_equal. lia.
  - destruct (merge_bins_allocated (map_range gb) ga) as [g' ->]. simpl.
    eexists. split; [reflexivity|]. unfold ddsketch.GetCount, store.TotalCount. simpl.
    rewrite int32_add_l, int32_add_r, int32_add_l, int32_add_r. f_equal. lia.
Qed.

(** Count conservation on the insertion side: a successful
    [AddWithCount(v, c)] raises [GetCount()] by [c], whichever counter
    receives the value. *)
Lemma AddWithCount_GetCount (s s' : ddsketch.DDSketch M) (v : float) (c : Z) :
  succeeds_with (ddsketch.AddWithCount s v c) s' →
  ddsketch.GetCount s' = int32 (ddsketch.GetCount s + c).
Proof.
  unfold succeeds_with, ddsketch.AddWithCount, ddsketch.GetCount, store.TotalCount.
  destruct (flt v 0 || fgt v _); [discriminate|].
  destruct (c <? 0); [discriminate|].
  destruct (fgt v _).
  - unfold store.AddWithCount. destruct (Z.eqb_spec c 0) as [->|Hne]; simpl.
    + intros [= <-]. simpl. rewrite int32_add_l. f_equal. lia.
    + destruct (map_add _ _ _); simpl; [|discriminate].
      intros [= <-]. simpl. rewrite int32_add_r, int32_add_l. f_equal. lia.
  - intros [= <-]. simpl. rewrite !int32_add_l. f_equal. lia.
Qed.

End MergeFacts.

(** The lemma at work: merging [sketchFive] into the new sketch over the
    allocated store succeeds with count 0 + 1. *)
Lemma MergeWith_allocated_example :
  ∃ a', succeeds_with (ddsketch.MergeWith sketchAlloc sketchFive) a'
        ∧ ddsketch.GetCount a' = 1.
Proof.
  destruct (MergeWith_allocated_count sketchAlloc sketchFive) as (a' & Ha & Hcount);
    [reflexivity | discriminate |].
  exists a'. split; [exact Ha | exact Hcount].
Defined.

(** C5, the code at the failing input. The new sketch over
    [NewSparseStore()] has a nil bin map; merging into it a sketch with an
    equal mapping that holds one value in bin 5 panics on the first bin
    instead of succeeding with count 0 + 1. *)
Theorem MergeWith_into_new_sketch_panics :
  mapping.Equals (ddsketch.IndexMapping sketchNew) (ddsketch.IndexMapping sketchFive) = true
  ∧ ddsketch.GetCount sketchNew = 0
  ∧ ddsketch.GetCount sketchFive = 1
  ∧ ddsketch.MergeWith sketchNew sketchFive = Panics nil_map_write.
Proof. repeat split. Qed.

(** ** C10: emptiness and the count *)

Section Reachable.

Context {M : Type} `{mapping.IndexMapping M}.

Lemma AddWithCount_counts_ok (s s' : ddsketch.DDSketch M) (v : float) (c : Z) :
  counts_ok s → total s + c ≤ MaxInt32 →
  succeeds_with (ddsketch.AddWithCount s v c) s' → counts_ok s'.
Proof.
  unfold counts_ok, total, succeeds_with, ddsketch.AddWithCount, store.TotalCount.
  intros (Hz & Hc & Ht) Hno.
  destruct (flt v 0 || fgt v _); [discriminate|].
  destruct (Z.ltb_spec c 0) as [?|Hc0]; [discriminate|].
  destruct (fgt v _).
  - unfold store.AddWithCount.
    destruct (Z.eqb_spec c 0) as [->|Hne]; simpl.
    + intros [= <-]. simpl. lia.
    + destruct (map_add _ _ _); simpl; [|discriminate].
      intros [= <-]. simpl. rewrite int32_id by (unfold is_int32, MinInt32, MaxInt32 in *; lia).
      lia.
  - intros [= <-]. simpl. rewrite int32_id by (unfold is_int32, MinInt32, MaxInt32 in *; lia).
    lia.
Qed.

Lemma MergeWith_counts_ok (s o s' : ddsketch.DDSketch M) :
  counts_ok s → counts_ok o → total s + total o ≤ MaxInt32 →
  succeeds_with (ddsketch.MergeWith s o) s' → counts_ok s'.
Proof.
  unfold counts_ok, total, succeeds_with, ddsketch.MergeWith, store.TotalCount.
  intros (Hz & Hc & Ht) (Hoz & Hoc & Hot) Hno.
  destruct (negb _); [discriminate|].
  unfold store.MergeWith, store.IsEmpty.
  destruct (Z.eqb_spec (store.count (ddsketch.store o)) 0) as [Ho|Ho]; simpl.
  - intros [= <-]. simpl. rewrite int32_id by (unfold is_int32, MinInt32, MaxInt32 in *; lia).
    lia.
  - destruct (store.merge_bins _ _); simpl; [|discriminate].
    intros [= <-]. simpl.
    rewrite !int32_id by (unfold is_int32, MinInt32, MaxInt32 in *; lia). lia.
Qed.

Lemma reachable_counts_ok (s : ddsketch.DDSketch M) : reachable s → counts_ok s.
Proof.
  induction 1 as [m st Hfresh | s s' v _ IH Hno Hadd | s s' v c _ IH Hno Hadd
                  | s o s' _ IHs _ IHo Hno Hmerge].
  - unfold counts_ok, total, MaxInt32.
    destruct Hfresh as [-> | ->]; simpl; unfold store.TotalCount; simpl; lia.
  - exact (AddWithCount_counts_ok s s' v 1 IH Hno Hadd).
  - exact (AddWithCount_counts_ok s s' v c IH Hno Hadd).
  - exact (MergeWith_counts_ok s o s' IHs IHo Hno Hmerge).
Qed.

End Reachable.

(** C10: for every sketch reachable from a new one by successful [Add],
    [AddWithCount] and [MergeWith] calls without int32 overflow,
    [GetCount()] is [zeroCount + store.TotalCount()], it is non-negative,
    and [IsEmpty()] is true if and only if [GetCount()] is 0. *)
Theorem IsEmpty_iff_GetCount_zero {M : Type} `{mapping.IndexMapping M}
    (s : ddsketch.DDSketch M) :
  reachable s →
  ddsketch.GetCount s = ddsketch.zeroCount s + store.TotalCount (ddsketch.store s)
  ∧ 0 ≤ ddsketch.GetCount s
  ∧ (ddsketch.IsEmpty s = true ↔ ddsketch.GetCount s = 0).
Proof.
  intros Hr. destruct (reachable_counts_ok s Hr) as (Hz & Hc & Ht).
  unfold total in Ht.
  assert (Hcount : ddsketch.GetCount s
                   = ddsketch.zeroCount s + store.TotalCount (ddsketch.store s)).
  { unfold ddsketch.GetCount. apply int32_id.
    unfold is_int32, MinInt32, MaxInt32 in *. lia. }
  split; [exact Hcount|]. split; [lia|].
  rewrite Hcount. unfold ddsketch.IsEmpty, store.IsEmpty, store.TotalCount in *.
  rewrite andb_true_iff, !Z.eqb_eq. lia.
Qed.

Lemma IsEmpty_iff_GetCount_zero_witness :
  ddsketch.GetCount sketchFive
  = ddsketch.zeroCount sketchFive + store.TotalCount (ddsketch.store sketchFive)
  ∧ 0 ≤ ddsketch.GetCount sketchFive
  ∧ (ddsketch.IsEmpty sketchFive = true ↔ ddsketch.GetCount sketchFive = 0).
Proof.
  apply (IsEmpty_iff_GetCount_zero sketchFive).
  apply (reach_Add sketchAlloc sketchFive 5).
  - apply reach_new. right. reflexivity.
  - vm_compute. discriminate.
  - exact sketchFive_built.
Defined.

(* ===================================================================== *)
(** * Further properties of the sparse store *)
(* ===================================================================== *)

Section BinsFacts.

Lemma elem_of_bin_indices (s : store.SparseStore) (k : Z) :
  k ∈ bin_indices s ↔ k ∈ dom (bins_map s).
Proof.
  unfold bin_indices, bins_map, map_range. destruct (store.bins s) as [g|]; simpl.
  - rewrite elem_of_dom. split.
    + intros Hk. apply list_elem_of_fmap in Hk as ([k' v] & -> & Hkv).
      apply elem_of_map_to_list in Hkv. eauto.
    + intros [v Hv]. apply list_elem_of_fmap. exists (k, v). split; [reflexivity|].
      apply elem_of_map_to_list, Hv.
  - rewrite dom_empty_L. split; [intros Hk; apply elem_of_nil in Hk; contradiction|].
    intros Hk. apply elem_of_empty in Hk. contradiction.
Qed.

Lemma map_get_bins_map (s : store.SparseStore) (k : Z) :
  map_get (store.bins s) k = default 0 (bins_map s !! k).
Proof.
  unfold map_get, bins_map. destruct (store.bins s); simpl; [reflexivity|].
  rewrite lookup_empty. reflexivity.
Qed.

Lemma values_sum_Permutation (l1 l2 : list (Z * Z)) :
  l1 ≡ₚ l2 → foldr Z.add 0 l1.*2 = foldr Z.add 0 l2.*2.
Proof.
  induction 1 as [|x l l' _ IH|x y l|l l' l'' _ IH1 _ IH2];
    [reflexivity| | |congruence]; rewrite !fmap_cons; simpl; lia.
Qed.

(** Writing [x] at [k] changes the sum of the values by [x] minus the old
    value. *)
Lemma values_sum_insert (g : gmap Z Z) (k x : Z) :
  foldr Z.add 0 (map_to_list (<[k := x]> g)).*2
  = foldr Z.add 0 (map_to_list g).*2 - default 0 (g !! k) + x.
Proof.
  destruct (g !! k) as [y|] eqn:Hk; simpl.
  - rewrite <- (insert_delete_eq g k x).
    rewrite (values_sum_Permutation _ _
               (map_to_list_insert (delete k g) k x (lookup_delete_eq g k))).
    rewrite <- (values_sum_Permutation _ _ (map_to_list_delete g k y Hk)).
    rewrite !fmap_cons. simpl. lia.
  - rewrite (values_sum_Permutation _ _ (map_to_list_insert g k x Hk)).
    rewrite fmap_cons. simpl. lia.
Qed.

Lemma int32_sub_add (t old v : Z) :
  int32 (t - old + int32 (old + v)) = int32 (t + v).
Proof. rewrite int32_add_r. f_equal. lia. Qed.

(** [m[k] += v] on an allocated map: the keys gain [k], and the int32 sum
    of the values grows by [v]. *)
Lemma map_add_allocated (g : gmap Z Z) (k v : Z) :
  ∃ g', map_add (Some g) k v = Returns (Some g')
        ∧ dom g' = {[k]} ∪ dom g
        ∧ int32 (foldr Z.add 0 (map_to_list g').*2)
          = int32 (foldr Z.add 0 (map_to_list g).*2 + v).
Proof.
  eexists. split; [reflexivity|]. split; [apply dom_insert_L|].
  rewrite values_sum_insert. apply int32_sub_add.
Qed.

Lemma merge_bins_dom_sum (kvs : list (Z * Z)) (g : gmap Z Z) :
  ∃ g', store.merge_bins (Some g) kvs = Returns (Some g')
        ∧ dom g' = list_to_set kvs.*1 ∪ dom g
        ∧ int32 (foldr Z.add 0 (map_to_list g').*2)
          = int32 (foldr Z.add 0 (map_to_list g).*2 + foldr Z.add 0 kvs.*2).
Proof.
  revert g. induction kvs as [|[k v] kvs IH]; intros g.
  - exists g. split; [reflexivity|]. split.
    + simpl. symmetry. apply (left_id_L ∅ (∪)).
    + simpl. f_equal. lia.
  - destruct (IH (<[k := int32 (default 0 (g !! k) + v)]> g)) as (g' & Hm & Hdom & Hsum).
    exists g'. split; [exact Hm|]. split.
    + rewrite Hdom, dom_insert_L, fmap_cons, list_to_set_cons. simpl.
      rewrite (assoc_L (∪)), (comm_L (∪) (list_to_set kvs.*1) {[k]}). reflexivity.
    + rewrite Hsum, values_sum_insert, fmap_cons. simpl.
      replace (foldr Z.add 0 (map_to_list g).*2 - default 0 (g !! k)
               + int32 (default 0 (g !! k) + v) + foldr Z.add 0 kvs.*2)
        with (foldr Z.add 0 (map_to_list g).*2 - default 0 (g !! k)
              + foldr Z.add 0 kvs.*2 + int32 (default 0 (g !! k) + v)) by lia.
      rewrite int32_add_r. f_equal. lia.
Qed.

Lemma bins_total_bins_map (s : store.SparseStore) :
  bins_total s = foldr Z.add 0 (map_to_list (bins_map s)).*2.
Proof.
  unfold bins_total, bins_map, map_range. destruct (store.bins s); simpl; [reflexivity|].
  rewrite map_to_list_empty. reflexivity.
Qed.

Lemma bins_total_no_bins (s : store.SparseStore) :
  dom (bins_map s) = ∅ → bins_total s = 0.
Proof.
  intros Hdom. apply dom_empty_inv_L in Hdom.
  rewrite bins_total_bins_map, Hdom, map_to_list_empty. reflexivity.
Qed.

Lemma bins_map_Copy (s : store.SparseStore) : bins_map (store.Copy s) = bins_map s.
Proof.
  unfold bins_map at 1. rewrite (proj1 (store_Copy_deep s)). reflexivity.
Qed.

End BinsFacts.

Section StoreInvariant.

Lemma store_ok_NewSparseStore : store_ok store.NewSparseStore.
Proof.
  unfold store_ok, bins_map. simpl. rewrite dom_empty_L.
  split; [reflexivity|]. split; [intros k Hk; apply elem_of_empty in Hk; contradiction|].
  split; [intros Hne; contradiction|]. split; [intros _; split; reflexivity|].
  intros k. unfold is_int32, MinInt32, MaxInt32. lia.
Qed.

Lemma store_ok_Copy (s : store.SparseStore) : store_ok s → store_ok (store.Copy s).
Proof.
  unfold store_ok. rewrite bins_map_Copy, !bins_total_bins_map, bins_map_Copy.
  intros (H1 & H2 & H3 & H4 & H5). repeat (split; [assumption|]).
  intros k. rewrite (proj1 (proj2 (store_Copy_deep s))). apply H5.
Qed.

Lemma store_ok_AddWithCount (s s' : store.SparseStore) (i n : Z) :
  store_ok s → is_int32 i → store.AddWithCount s i n = Returns s' → store_ok s'.
Proof.
  intros Hok Hi. unfold store.AddWithCount.
  destruct (n =? 0); [intros [= <-]; exact Hok|].
  destruct Hok as (Hcount & Hkeys & Hsome & Hnone & Hvals).
  destruct s as [[g|] c lo hi]; simpl; [|discriminate].
  intros [= <-]. unfold store_ok, bins_map in *. simpl in *.
  rewrite bins_total_bins_map in *. unfold bins_map in *. simpl in *.
  rewrite dom_insert_L.
  assert (Hlo : (if i <? lo then i else lo) = Z.min lo i)
    by (destruct (Z.ltb_spec i lo); lia).
  assert (Hhi : (if hi <? i then i else hi) = Z.max hi i)
    by (destruct (Z.ltb_spec hi i); lia).
  rewrite Hlo, Hhi.
  split.
  { rewrite values_sum_insert, int32_sub_add, Hcount, int32_add_l. reflexivity. }
  split.
  { intros k Hk. apply elem_of_union in Hk as [Hk|Hk].
    - apply elem_of_singleton in Hk as ->. split; [exact Hi | lia].
    - destruct (Hkeys k Hk) as [Hk32 Hrange]. split; [exact Hk32 | lia]. }
  split.
  { intros _. destruct (decide (dom g = ∅)) as [Hempty|Hne].
    - destruct (Hnone Hempty) as [-> ->]. unfold is_int32 in Hi.
      split; apply elem_of_union_l, elem_of_singleton; lia.
    - destruct (Hsome Hne) as [Hmin Hmax]. split.
      + destruct (Z.min_spec lo i) as [[_ ->]|[_ ->]];
          [apply elem_of_union_r, Hmin
          | apply elem_of_union_l, elem_of_singleton; reflexivity].
      + destruct (Z.max_spec hi i) as [[_ ->]|[_ ->]];
          [apply elem_of_union_l, elem_of_singleton; reflexivity
          | apply elem_of_union_r, Hmax]. }
  split.
  { intros Hempty. exfalso. apply (not_elem_of_empty (C := gset Z) i).
    rewrite <- Hempty. apply elem_of_union_l, elem_of_singleton. reflexivity. }
  intros k. destruct (decide (k = i)) as [->|Hk].
  - rewrite lookup_insert_eq. apply int32_is_int32.
  - rewrite lookup_insert_ne by done. apply Hvals.
Qed.

Lemma map_range_bins_map (o : store.SparseStore) :
  map_range (store.bins o) = map_to_list (bins_map o).
Proof.
  unfold map_range, bins_map. destruct (store.bins o); simpl; [reflexivity|].
  rewrite map_to_list_empty. reflexivity.
Qed.

Lemma list_to_set_keys (g : gmap Z Z) :
  list_to_set (C := gset Z) (map_to_list g).*1 = dom g.
Proof.
  apply set_eq. intros k. rewrite elem_of_list_to_set, elem_of_dom. split.
  - intros Hk. apply list_elem_of_fmap in Hk as ([k' v] & -> & Hkv).
    apply elem_of_map_to_list in Hkv. eauto.
  - intros [v Hv]. apply list_elem_of_fmap. exists (k, v). split; [reflexivity|].
    apply elem_of_map_to_list, Hv.
Qed.

Lemma store_ok_MergeWith (s o s' : store.SparseStore) :
  store_ok s → store_ok o → store.MergeWith s o = Returns s' → store_ok s'.
Proof.
  intros Hok (Hocount & Hokeys & Hosome & Honone & Hovals).
  unfold store.MergeWith, store.IsEmpty.
  destruct (Z.eqb_spec (store.count o) 0) as [_|Hne];
    [intros [= <-]; exact Hok|].
  destruct Hok as (Hcount & Hkeys & Hsome & Hnone & Hvals).
  assert (Hodom : dom (bins_map o) ≠ ∅).
  { intros Hempty. apply Hne. rewrite Hocount, (bins_total_no_bins o Hempty). reflexivity. }
  destruct (Hosome Hodom) as [Homin Homax].
  pose proof (map_range_bins_map o) as Hrange.
  destruct s as [[g|] c lo hi]; simpl.
  - destruct (merge_bins_dom_sum (map_range (store.bins o)) g) as (g' & Hm & Hdom & Hsum).
    rewrite Hm. simpl. intros [= <-].
    assert (Hvals' : ∀ k, is_int32 (map_get (Some g') k)).
    { intros k. rewrite (merge_bins_get (map_range (store.bins o)) g g' k);
        [|rewrite Hrange; apply NoDup_fst_map_to_list|exact Hm].
      destruct (_ !! k); [apply int32_is_int32 | apply Hvals]. }
    unfold store_ok, bins_map in Hcount, Hkeys, Hsome, Hnone |- *.
    simpl in *. rewrite bins_total_bins_map in Hcount |- *.
    unfold bins_map in Hcount |- *. simpl in *.
    assert (Hdom' : dom g' = dom (bins_map o) ∪ dom g)
      by (rewrite Hdom, Hrange, list_to_set_keys; reflexivity).
    rewrite Hdom'.
    assert (Hlo : (if store.minIndex o <? lo then store.minIndex o else lo)
                  = Z.min lo (store.minIndex o))
      by (destruct (Z.ltb_spec (store.minIndex o) lo); lia).
    assert (Hhi : (if hi <? store.maxIndex o then store.maxIndex o else hi)
                  = Z.max hi (store.maxIndex o))
      by (destruct (Z.ltb_spec hi (store.maxIndex o)); lia).
    rewrite Hlo, Hhi.
    split.
    { rewrite Hsum, Hcount, Hocount, int32_add_l, int32_add_r.
      rewrite (bins_total_bins_map o), <- Hrange. reflexivity. }
    split.
    { intros k Hk. apply elem_of_union in Hk as [Hk|Hk].
      - destruct (Hokeys k Hk) as [Hk32 Hr]. split; [exact Hk32 | lia].
      - destruct (Hkeys k Hk) as [Hk32 Hr]. split; [exact Hk32 | lia]. }
    split.
    { intros _. destruct (decide (dom g = ∅)) as [Hempty|Hgne].
      + destruct (Hnone Hempty) as [-> ->].
        destruct (Hokeys _ Homin) as [[_ Hmin32] _].
        destruct (Hokeys _ Homax) as [[Hmax32 _] _].
        rewrite Z.min_r, Z.max_r by lia.
        split; apply elem_of_union_l; assumption.
      + destruct (Hsome Hgne) as [Hmin Hmax]. split.
        * destruct (Z.min_spec lo (store.minIndex o)) as [[_ ->]|[_ ->]];
            [apply elem_of_union_r, Hmin | apply elem_of_union_l, Homin].
        * destruct (Z.max_spec hi (store.maxIndex o)) as [[_ ->]|[_ ->]];
            [apply elem_of_union_l, Homax | apply elem_of_union_r, Hmax]. }
    split; [|exact Hvals'].
    intros Hempty. exfalso.
    apply (not_elem_of_empty (C := gset Z) (store.minIndex o)).
    rewrite <- Hempty. apply elem_of_union_l, Homin.
  - destruct (map_range (store.bins o)) as [|[k v] kvs] eqn:Hkvs; [|discriminate].
    exfalso. apply Hodom. apply dom_empty_iff_L, map_to_list_empty_iff.
    rewrite <- Hrange. reflexivity.
Qed.

Lemma AddBin_AddWithCount (s : store.SparseStore) (b : store.Bin) :
  store.AddBin s b = store.AddWithCount s (store.Index b) (store.Count b).
Proof.
  unfold store.AddBin, store.AddWithCount. destruct (store.Count b =? 0); reflexivity.
Qed.

Lemma built_store_ok (s : store.SparseStore) : built s → store_ok s.
Proof.
  induction 1 as [|s _ IH|s s' i _ IH Hi Hadd|s s' i n _ IH Hi Hadd
                  |s s' b _ IH Hi Hadd|s o s' _ IHs _ IHo Hmerge].
  - apply store_ok_NewSparseStore.
  - apply store_ok_Copy, IH.
  - exact (store_ok_AddWithCount s s' i 1 IH Hi Hadd).
  - exact (store_ok_AddWithCount s s' i n IH Hi Hadd).
  - rewrite AddBin_AddWithCount in Hadd.
    exact (store_ok_AddWithCount s s' _ _ IH Hi Hadd).
  - exact (store_ok_MergeWith s o s' IHs IHo Hmerge).
Qed.

End StoreInvariant.

Section BuiltStores.

Lemma is_int32_small (i : Z) : -1000 ≤ i ≤ 1000 → is_int32 i.
Proof. unfold is_int32, MinInt32, MaxInt32. lia. Qed.

Lemma built_emptyStore : built emptyStore.
Proof. apply built_Copy, built_NewSparseStore. Qed.

Lemma built_store05 : built store05.
Proof.
  apply (built_Add {| store.bins := Some (<[0 := 1]> ∅); store.count := 1;
                      store.minIndex := 0; store.maxIndex := 0 |} store05 5).
  - apply (built_Add emptyStore _ 0);
      [apply built_emptyStore | apply is_int32_small; lia | vm_compute; reflexivity].
  - apply is_int32_small. lia.
  - vm_compute. reflexivity.
Qed.

Lemma built_storeNeg : built storeNeg.
Proof.
  apply (built_AddWithCount emptyStore storeNeg 5 (-1));
    [apply built_emptyStore | apply is_int32_small; lia | vm_compute; reflexivity].
Qed.

Lemma bin_indices_nil (s : store.SparseStore) :
  bin_indices s = [] ↔ dom (bins_map s) = ∅.
Proof.
  split.
  - intros Hnil. apply set_eq. intros k. rewrite <- elem_of_bin_indices, Hnil.
    split; [intros Hk; apply elem_of_nil in Hk; contradiction|].
    intros Hk. apply elem_of_empty in Hk. contradiction.
  - intros Hdom. destruct (bin_indices s) as [|k l] eqn:Hl; [reflexivity|].
    exfalso. apply (not_elem_of_empty (C := gset Z) k). rewrite <- Hdom.
    apply elem_of_bin_indices. rewrite Hl. apply list_elem_of_here.
Qed.

End BuiltStores.

Section CountInvariant.

Lemma counts_kept_AddWithCount (s s' : store.SparseStore) (i n : Z) :
  counts_kept s → store.AddWithCount s i n = Returns s' → counts_kept s'.
Proof.
  intros Hok. unfold store.AddWithCount.
  destruct (n =? 0); [intros [= <-]; exact Hok|].
  destruct Hok as [Hcount Hvals].
  destruct s as [[g|] c lo hi]; simpl; [|discriminate].
  intros [= <-]. unfold counts_kept in *. simpl in *.
  rewrite bins_total_bins_map in *. unfold bins_map in *. simpl in *.
  split.
  - rewrite values_sum_insert, int32_sub_add, Hcount, int32_add_l. reflexivity.
  - intros k. destruct (decide (k = i)) as [->|Hk].
    + rewrite lookup_insert_eq. apply int32_is_int32.
    + rewrite lookup_insert_ne by done. apply Hvals.
Qed.

Lemma counts_kept_MergeWith (s o s' : store.SparseStore) :
  counts_kept s → counts_kept o → store.MergeWith s o = Returns s' → counts_kept s'.
Proof.
  intros Hok [Hocount Hovals].
  unfold store.MergeWith, store.IsEmpty.
  destruct (Z.eqb_spec (store.count o) 0) as [_|Hne];
    [intros [= <-]; exact Hok|].
  destruct Hok as [Hcount Hvals].
  pose proof (map_range_bins_map o) as Hrange.
  destruct s as [[g|] c lo hi]; simpl.
  - destruct (merge_bins_dom_sum (map_range (store.bins o)) g) as (g' & Hm & _ & Hsum).
    rewrite Hm. simpl. intros [= <-].
    unfold counts_kept in Hcount |- *. simpl in *.
    rewrite bins_total_bins_map in Hcount |- *.
    unfold bins_map in Hcount |- *. simpl in *.
    split.
    + rewrite Hsum, Hcount, Hocount, int32_add_l, int32_add_r.
      rewrite (bins_total_bins_map o), <- Hrange. reflexivity.
    + intros k. change (is_int32 (map_get (Some g') k)).
      rewrite (merge_bins_get (map_range (store.bins o)) g g' k);
        [|rewrite Hrange; apply NoDup_fst_map_to_list|exact Hm].
      destruct (_ !! k); [apply int32_is_int32 | apply Hvals].
  - destruct (map_range (store.bins o)) as [|[k v] kvs] eqn:Hkvs; [|discriminate].
    exfalso. apply Hne. rewrite Hocount. unfold bins_total. rewrite Hkvs. reflexivity.
Qed.

Lemma produced_counts_kept (s : store.SparseStore) : produced s → counts_kept s.
Proof.
  induction 1 as [|s _ IH|s s' i _ IH Hadd|s s' i n _ IH Hadd
                  |s s' b _ IH Hadd|s o s' _ IHs _ IHo Hmerge].
  - split; [reflexivity|]. intros k. unfold is_int32, MinInt32, MaxInt32. simpl. lia.
  - destruct IH as [Hcount Hvals]. split.
    + unfold store.Copy at 1. cbn [store.count]. rewrite Hcount.
      rewrite !bins_total_bins_map, bins_map_Copy. reflexivity.
    + intros k. rewrite (proj1 (proj2 (store_Copy_deep s))). apply Hvals.
  - exact (counts_kept_AddWithCount s s' i 1 IH Hadd).
  - exact (counts_kept_AddWithCount s s' i n IH Hadd).
  - rewrite AddBin_AddWithCount in Hadd.
    exact (counts_kept_AddWithCount s s' _ _ IH Hadd).
  - exact (counts_kept_MergeWith s o s' IHs IHo Hmerge).
Qed.

End CountInvariant.

(** X1: in every store produced through the methods of the package,
    whatever the indices, the recorded total count is the sum of all bins
    in int32 arithmetic, and every bin holds an int32. *)
Theorem produced_count_is_sum (s : store.SparseStore) :
  produced s →
  store.TotalCount s = int32 (bins_total s)
  ∧ ∀ k, is_int32 (map_get (store.bins s) k).
Proof. intros Hp. exact (produced_counts_kept s Hp). Qed.

Lemma produced_count_is_sum_witness :
  store.TotalCount storeWide = int32 (bins_total storeWide)
  ∧ ∀ k, is_int32 (map_get (store.bins storeWide) k).
Proof.
  apply (produced_count_is_sum storeWide).
  apply (produced_AddWithCount
           {| store.bins := Some (<[4294967296 := 1]> ∅); store.count := 1;
              store.minIndex := MaxInt32; store.maxIndex := 4294967296 |}
           storeWide (-7) (-2)).
  - apply (produced_Add emptyStore _ 4294967296);
      [apply produced_Copy, produced_NewSparseStore | vm_compute; reflexivity].
  - vm_compute. reflexivity.
Defined.

(** X2: a built store that is not empty answers [MinIndex()] and
    [MaxIndex()] with the smallest and the largest index of its bin map:
    both are bin indices and every bin index lies between them. An empty
    store answers both with an error. *)
Theorem built_extreme_indices (s : store.SparseStore) :
  built s →
  (store.IsEmpty s = false →
   ∃ lo hi, store.MinIndex s = (lo, None) ∧ store.MaxIndex s = (hi, None)
            ∧ lo ∈ bin_indices s ∧ hi ∈ bin_indices s
            ∧ ∀ k, k ∈ bin_indices s → lo ≤ k ≤ hi)
  ∧ (store.IsEmpty s = true →
     (store.MinIndex s).2 ≠ None ∧ (store.MaxIndex s).2 ≠ None).
Proof.
  intros Hb. destruct (built_store_ok s Hb) as (Hcount & Hkeys & Hsome & _ & _).
  unfold store.MinIndex, store.MaxIndex. split; intros Hempty; rewrite Hempty;
    [|split; discriminate].
  assert (Hdom : dom (bins_map s) ≠ ∅).
  { intros Hnone. unfold store.IsEmpty in Hempty.
    rewrite Hcount, (bins_total_no_bins s Hnone) in Hempty. discriminate Hempty. }
  destruct (Hsome Hdom) as [Hmin Hmax].
  exists (store.minIndex s), (store.maxIndex s).
  split; [reflexivity|]. split; [reflexivity|].
  split; [apply elem_of_bin_indices, Hmin|]. split; [apply elem_of_bin_indices, Hmax|].
  intros k Hk. apply Hkeys, elem_of_bin_indices, Hk.
Qed.

Lemma built_extreme_indices_witness :
  ∃ lo hi, store.MinIndex store05 = (lo, None) ∧ store.MaxIndex store05 = (hi, None)
           ∧ lo ∈ bin_indices store05 ∧ hi ∈ bin_indices store05
           ∧ ∀ k, k ∈ bin_indices store05 → lo ≤ k ≤ hi.
Proof.
  apply (proj1 (built_extreme_indices store05 built_store05)). reflexivity.
Defined.

(** X3: the initial [minIndex] is [math.MaxInt32] and the initial
    [maxIndex] is [math.MinInt32], so the first index of a store is only
    recorded on both sides when it lies between them. After a first
    insertion at an index above [MaxInt32], the one bin lies above
    [minIndex]; after one below [MinInt32], it lies below [maxIndex]. *)
Theorem first_index_outside_int32 (i n : Z) :
  n ≠ 0 →
  ∃ s', store.AddWithCount emptyStore i n = Returns s'
        ∧ bin_indices s' = [i]
        ∧ (MaxInt32 < i → store.minIndex s' = MaxInt32 ∧ store.maxIndex s' = i)
        ∧ (i < MinInt32 → store.maxIndex s' = MinInt32 ∧ store.minIndex s' = i)
        ∧ (is_int32 i → store.minIndex s' = i ∧ store.maxIndex s' = i).
Proof.
  intros Hn. unfold store.AddWithCount.
  destruct (Z.eqb_spec n 0) as [?|_]; [contradiction|].
  eexists. split; [reflexivity|]. simpl. split.
  - unfold bin_indices. simpl. rewrite lookup_empty. simpl.
    rewrite insert_empty, map_to_list_singleton. reflexivity.
  - unfold is_int32, MaxInt32, MinInt32.
    split; [|split]; intros Hi;
      destruct (Z.ltb_spec (-2147483648) i); destruct (Z.ltb_spec i 2147483647); lia.
Qed.

Lemma first_index_outside_int32_witness :
  ∃ s', store.AddWithCount emptyStore 4294967296 1 = Returns s'
        ∧ bin_indices s' = [4294967296]
        ∧ (MaxInt32 < 4294967296 → store.minIndex s' = MaxInt32
                                   ∧ store.maxIndex s' = 4294967296)
        ∧ (4294967296 < MinInt32 → store.maxIndex s' = MinInt32
                                   ∧ store.minIndex s' = 4294967296)
        ∧ (is_int32 4294967296 → store.minIndex s' = 4294967296
                                 ∧ store.maxIndex s' = 4294967296).
Proof. apply (first_index_outside_int32 4294967296 1). lia. Defined.

(** X4: the store panics only on a write to a nil bin map.
    [AddWithCount(i, n)] panics exactly when the map is nil and [n] is not
    zero; [MergeWith(other)] panics exactly when the map is nil, [other]'s
    count is not zero and [other] has a bin. A store returned by [Copy]
    has an allocated map, so neither method panics on it. *)
Theorem store_panics_iff (s o : store.SparseStore) (i n : Z) :
  (panicked (store.AddWithCount s i n) ↔ store.bins s = None ∧ n ≠ 0)
  ∧ (panicked (store.MergeWith s o)
     ↔ store.bins s = None ∧ store.count o ≠ 0 ∧ bin_indices o ≠ [])
  ∧ ¬ panicked (store.AddWithCount (store.Copy s) i n)
  ∧ ¬ panicked (store.MergeWith (store.Copy s) o).
Proof.
  assert (Hadd : panicked (store.AddWithCount s i n) ↔ store.bins s = None ∧ n ≠ 0).
  { unfold store.AddWithCount, panicked.
    destruct (Z.eqb_spec n 0) as [Hn|Hn].
    - split; [intros [msg Hmsg]; discriminate Hmsg | intros [_ Hn']; contradiction].
    - destruct (store.bins s) as [g|]; simpl.
      + split; [intros [msg Hmsg]; discriminate Hmsg | intros [Hb _]; discriminate Hb].
      + split; [tauto | eauto]. }
  assert (Hmerge : ∀ s0, panicked (store.MergeWith s0 o)
            ↔ store.bins s0 = None ∧ store.count o ≠ 0 ∧ bin_indices o ≠ []).
  { intros s0. unfold store.MergeWith, store.IsEmpty, panicked, bin_indices.
    destruct (Z.eqb_spec (store.count o) 0) as [Ho|Ho].
    - split; [intros [msg Hmsg]; discriminate Hmsg | intros (_ & Ho' & _); contradiction].
    - destruct (store.bins s0) as [g|]; simpl.
      + destruct (merge_bins_allocated (map_range (store.bins o)) g) as [g' ->]. simpl.
        split; [intros [msg Hmsg]; discriminate Hmsg | intros (Hb & _); discriminate Hb].
      + destruct (map_range (store.bins o)) as [|[k v] kvs]; simpl.
        * split; [intros [msg Hmsg]; discriminate Hmsg | intros (_ & _ & Hnil); contradiction].
        * split; [intros _; repeat split; [exact Ho | discriminate] | eauto]. }
  split; [exact Hadd|]. split; [apply Hmerge|]. split.
  - unfold store.AddWithCount, panicked. destruct (n =? 0); simpl;
      intros [msg Hmsg]; discriminate Hmsg.
  - intros Hp. apply Hmerge in Hp as [Hb _]. discriminate Hb.
Qed.

(** X5: [MergeWith] on a store with an allocated bin map. A store whose
    total count is 0 is skipped, whatever bins it holds. Any other store is
    merged bin by bin: each bin of [other] is added to the bin of the same
    index in int32 arithmetic, the other bins stay, the counts add up, and
    [minIndex] and [maxIndex] take in those of [other]. *)
Theorem store_MergeWith_binwise (s o : store.SparseStore) :
  store.bins s ≠ None →
  (store.count o = 0 → store.MergeWith s o = Returns s)
  ∧ (store.count o ≠ 0 →
     ∃ s', store.MergeWith s o = Returns s'
           ∧ (∀ k, map_get (store.bins s') k
                   = match bins_map o !! k with
                     | Some v => int32 (map_get (store.bins s) k + v)
                     | None => map_get (store.bins s) k
                     end)
           ∧ store.TotalCount s' = int32 (store.TotalCount s + store.TotalCount o)
           ∧ store.minIndex s' = Z.min (store.minIndex s) (store.minIndex o)
           ∧ store.maxIndex s' = Z.max (store.maxIndex s) (store.maxIndex o)).
Proof.
  intros Hs. unfold store.MergeWith, store.IsEmpty. split.
  - intros ->. reflexivity.
  - intros Ho. destruct (Z.eqb_spec (store.count o) 0) as [?|_]; [contradiction|].
    destruct s as [[g|] c lo hi]; [|contradiction]. simpl.
    destruct (merge_bins_allocated (map_range (store.bins o)) g) as [g' Hm].
    assert (Hget : ∀ k, map_get (Some g') k
                        = match bins_map o !! k with
                          | Some v => int32 (map_get (Some g) k + v)
                          | None => map_get (Some g) k
                          end).
    { intros k.
      rewrite (merge_bins_get (map_range (store.bins o)) g g' k);
        [|rewrite map_range_bins_map; apply NoDup_fst_map_to_list|exact Hm].
      rewrite map_range_bins_map, list_to_map_to_list. reflexivity. }
    rewrite Hm. simpl. eexists. split; [reflexivity|]. simpl.
    split; [exact Hget|split; [reflexivity|split]].
    + destruct (Z.ltb_spec (store.minIndex o) lo); lia.
    + destruct (Z.ltb_spec hi (store.maxIndex o)); lia.
Qed.

Lemma store_MergeWith_binwise_witness :
  ∃ s', store.MergeWith store05 storeNeg = Returns s'
        ∧ (∀ k, map_get (store.bins s') k
                = match bins_map storeNeg !! k with
                  | Some v => int32 (map_get (store.bins store05) k + v)
                  | None => map_get (store.bins store05) k
                  end)
        ∧ store.TotalCount s' = int32 (store.TotalCount store05 + store.TotalCount storeNeg)
        ∧ store.minIndex s' = Z.min (store.minIndex store05) (store.minIndex storeNeg)
        ∧ store.maxIndex s' = Z.max (store.maxIndex store05) (store.maxIndex storeNeg).
Proof.
  apply (proj2 (store_MergeWith_binwise store05 storeNeg ltac:(discriminate))).
  discriminate.
Defined.

Section CopyAndRank.

Lemma SparseStore_eq (a b : store.SparseStore) :
  store.bins a = store.bins b → store.count a = store.count b →
  store.minIndex a = store.minIndex b → store.maxIndex a = store.maxIndex b → a = b.
Proof. destruct a, b. simpl. intros -> -> -> ->. reflexivity. Qed.

Lemma rank_scan_ext (s t : store.SparseStore) (r : float) (keys : list Z) (n : Z) :
  (∀ k, map_get (store.bins t) k = map_get (store.bins s) k) →
  store.rank_scan t r n keys = store.rank_scan s r n keys.
Proof.
  intros Hget. revert n. induction keys as [|k keys IH]; intros n; [reflexivity|].
  simpl. rewrite Hget, IH. reflexivity.
Qed.

Lemma rank_keys_Copy (s : store.SparseStore) :
  store.rank_keys (store.Copy s) = store.rank_keys s.
Proof.
  unfold store.rank_keys. rewrite (proj1 (store_Copy_deep s)).
  destruct (store.bins s) as [g|]; simpl; [reflexivity|].
  rewrite map_size_empty, map_to_list_empty. reflexivity.
Qed.

Lemma rank_scan_elem (s : store.SparseStore) (r : float) (keys : list Z) (n k : Z) :
  store.rank_scan s r n keys = Some k → k ∈ keys.
Proof.
  revert n. induction keys as [|j keys IH]; intros n; simpl; [discriminate|].
  destruct (fgt _ r); [intros [= ->]; apply list_elem_of_here|].
  intros Hk. apply list_elem_of_further, (IH _ Hk).
Qed.

Lemma rank_scan_NaN (s : store.SparseStore) (keys : list Z) (n : Z) :
  store.rank_scan s NaN n keys = None.
Proof.
  revert n. induction keys as [|k keys IH]; intros n; [reflexivity|].
  simpl. unfold fgt. fold (flt NaN (float64 (int32 (n + map_get (store.bins s) k)))).
  rewrite flt_NaN_l. apply IH.
Qed.

End CopyAndRank.

(** X6: [Copy] returns a store that answers every query as the original:
    the same bins, total count, [IsEmpty], [MinIndex], [MaxIndex],
    [KeyAtRank] and [Bins]. Copying a copy changes nothing. *)
Theorem store_Copy_equivalent (s : store.SparseStore) :
  (∀ k, map_get (store.bins (store.Copy s)) k = map_get (store.bins s) k)
  ∧ store.TotalCount (store.Copy s) = store.TotalCount s
  ∧ store.IsEmpty (store.Copy s) = store.IsEmpty s
  ∧ store.MinIndex (store.Copy s) = store.MinIndex s
  ∧ store.MaxIndex (store.Copy s) = store.MaxIndex s
  ∧ (∀ r, store.KeyAtRank (store.Copy s) r = store.KeyAtRank s r)
  ∧ store.Bins (store.Copy s) = store.Bins s
  ∧ store.Copy (store.Copy s) = store.Copy s.
Proof.
  destruct (store_Copy_deep s) as (Hbins & Hget & Hcount & Hmin & Hmax).
  split; [exact Hget|]. split; [exact Hcount|]. split; [reflexivity|].
  split; [reflexivity|]. split; [reflexivity|]. split; [|split].
  - intros r. unfold store.KeyAtRank. cbv zeta.
    rewrite rank_keys_Copy, (rank_scan_ext s (store.Copy s) r _ 0 Hget). reflexivity.
  - unfold store.Bins. rewrite Hbins.
    destruct (store.bins s); simpl; [reflexivity|].
    rewrite map_to_list_empty. reflexivity.
  - apply SparseStore_eq; [|reflexivity..].
    rewrite (proj1 (store_Copy_deep (store.Copy s))), Hbins. reflexivity.
Qed.

(** X7: [KeyAtRank] falls back on [maxIndex]. It does so for a NaN rank on
    every store, since no count exceeds NaN, and for every rank on a store
    without bins; on a built store without bins that is [math.MinInt32]. *)
Theorem KeyAtRank_falls_back_on_maxIndex (s : store.SparseStore) :
  store.KeyAtRank s NaN = store.maxIndex s
  ∧ (bin_indices s = [] → ∀ r, store.KeyAtRank s r = store.maxIndex s)
  ∧ (bin_indices s = [] → built s → ∀ r, store.KeyAtRank s r = MinInt32).
Proof.
  assert (Hnone : bin_indices s = [] → ∀ r, store.KeyAtRank s r = store.maxIndex s).
  { intros Hnil r. unfold store.KeyAtRank, store.rank_keys. cbv zeta.
    fold (bin_indices s). rewrite Hnil.
    assert (Hlen : map_len (store.bins s) = 0%nat).
    { unfold bin_indices, map_range, map_len in *. destruct (store.bins s) as [g|];
        [|reflexivity].
      apply fmap_nil_inv, map_to_list_empty_iff in Hnil. subst g. apply map_size_empty. }
    rewrite Hlen. reflexivity. }
  split; [|split; [exact Hnone|]].
  - unfold store.KeyAtRank. cbv zeta. rewrite rank_scan_NaN. reflexivity.
  - intros Hnil Hb r. rewrite (Hnone Hnil r).
    destruct (built_store_ok s Hb) as (_ & _ & _ & Hsentinel & _).
    apply Hsentinel, bin_indices_nil, Hnil.
Qed.

Lemma KeyAtRank_falls_back_on_maxIndex_witness :
  bin_indices emptyStore = [] ∧ store.KeyAtRank emptyStore 3 = MinInt32.
Proof.
  split; [reflexivity|].
  apply (proj2 (proj2 (KeyAtRank_falls_back_on_maxIndex emptyStore)));
    [reflexivity | exact built_emptyStore].
Defined.

Section RankNone.

Context (s : store.SparseStore) (r : float).

Hypothesis no_bin_zero : 0 ∉ bin_indices s.
Hypothesis no_overflow : ∀ k, k ∈ bin_indices s → is_int32 (cumulativeCount s k).

(** When the scan over the proper keys finds no key, no cumulative count
    exceeds the rank; [P] is the part already visited. *)
Lemma rank_scan_none (P Q : list Z) :
  ascending_keys s = P ++ Q →
  (∀ j, j ∈ P → exceeds (cumulativeCount s j) r = false) →
  store.rank_scan s r (bins_sum s P) Q = None →
  ∀ j, j ∈ bin_indices s → exceeds (cumulativeCount s j) r = false.
Proof.
  revert P. induction Q as [|x Q IH]; intros P Hsplit Hbelow Hnone j Hj.
  - rewrite app_nil_r in Hsplit. apply Hbelow. rewrite <- Hsplit.
    rewrite (ascending_keys_Permutation s no_bin_zero). exact Hj.
  - assert (Hx : x ∈ bin_indices s).
    { rewrite <- (ascending_keys_Permutation s no_bin_zero), Hsplit.
      apply elem_of_app. right. apply list_elem_of_here. }
    pose proof (prefix_sum_is_cumulativeCount s no_bin_zero P Q x Hsplit) as Hcum.
    simpl in Hnone. rewrite Hcum, (int32_id _ (no_overflow x Hx)) in Hnone.
    fold (exceeds (cumulativeCount s x) r) in Hnone.
    destruct (exceeds (cumulativeCount s x) r) eqn:Hex; [discriminate|].
    assert (Hsum : bins_sum s (P ++ [x]) = cumulativeCount s x)
      by (rewrite bins_sum_app; simpl; lia).
    rewrite <- Hsum in Hnone.
    apply (IH (P ++ [x])); [| |exact Hnone|exact Hj].
    + rewrite Hsplit, <- app_assoc. reflexivity.
    + intros i Hi. apply elem_of_app in Hi as [Hi|Hi]; [apply Hbelow, Hi|].
      apply list_elem_of_singleton in Hi as ->. exact Hex.
Qed.

End RankNone.

(** X8: on a store that has no bin at index 0 and whose cumulative counts
    fit an int32, [KeyAtRank] is determined for every rank [r >= 0]: when
    the cumulative count at some bin index exceeds [r] it returns the
    smallest such index, and when none does it returns [maxIndex]. Bins of
    negative count are covered. *)
Theorem KeyAtRank_smallest_exceeding (s : store.SparseStore) (r : float) :
  0 ∉ bin_indices s →
  (∀ k, k ∈ bin_indices s → is_int32 (cumulativeCount s k)) →
  fle 0 r = true →
  ((∃ j, j ∈ bin_indices s ∧ exceeds (cumulativeCount s j) r = true) →
   store.KeyAtRank s r ∈ bin_indices s
   ∧ exceeds (cumulativeCount s (store.KeyAtRank s r)) r = true
   ∧ ∀ j, j ∈ bin_indices s → exceeds (cumulativeCount s j) r = true →
          store.KeyAtRank s r ≤ j)
  ∧ ((∀ j, j ∈ bin_indices s → exceeds (cumulativeCount s j) r = false) →
     store.KeyAtRank s r = store.maxIndex s).
Proof.
  intros Hzero Hfit Hr.
  assert (Hr0 : fgt (float64 0) r = false) by (apply (fge_not_flt r 0), Hr).
  assert (Hnil : ∀ j : Z, j ∈ @nil Z → exceeds (cumulativeCount s j) r = false)
    by (intros j Hj; apply elem_of_nil in Hj; contradiction).
  unfold store.KeyAtRank. cbv zeta.
  rewrite (rank_scan_skip_zeros s r Hzero _ 0);
    [|unfold is_int32, MinInt32, MaxInt32; lia|exact Hr0].
  fold (ascending_keys s).
  pose proof (rank_scan_ascending s r Hzero Hfit [] (ascending_keys s) eq_refl Hr0 Hnil)
    as Hscan.
  pose proof (rank_scan_none s r Hzero Hfit [] (ascending_keys s) eq_refl Hnil) as Hnone.
  simpl in Hscan, Hnone.
  destruct (store.rank_scan s r 0 (ascending_keys s)) as [k|].
  - split; [intros _; exact Hscan|].
    intros Hall. destruct Hscan as (Hk & Hex & _).
    rewrite (Hall k Hk) in Hex. discriminate.
  - split; [|reflexivity].
    intros (j & Hj & Hex). rewrite (Hnone eq_refl j Hj) in Hex. discriminate.
Qed.

Lemma KeyAtRank_smallest_exceeding_witness :
  store.KeyAtRank storeNoZero 2 ∈ bin_indices storeNoZero
  ∧ exceeds (cumulativeCount storeNoZero (store.KeyAtRank storeNoZero 2)) 2 = true
  ∧ ∀ j, j ∈ bin_indices storeNoZero →
         exceeds (cumulativeCount storeNoZero j) 2 = true →
         store.KeyAtRank storeNoZero 2 ≤ j.
Proof.
  assert (Hkeys : bin_indices storeNoZero = [-3; 5]) by (vm_compute; reflexivity).
  refine (proj1 (KeyAtRank_smallest_exceeding storeNoZero 2 _ _ _) _).
  - rewrite Hkeys. intros Hin.
    apply elem_of_cons in Hin as [Hin|Hin]; [discriminate Hin|].
    apply list_elem_of_singleton in Hin. discriminate Hin.
  - intros k. rewrite Hkeys. intros Hk.
    apply elem_of_cons in Hk as [->|Hk];
      [|apply list_elem_of_singleton in Hk as ->]; vm_compute; split; discriminate.
  - reflexivity.
  - exists 5. split; [|vm_compute; reflexivity].
    rewrite Hkeys. apply list_elem_of_further, list_elem_of_here.
Defined.

(** X9: for a rank [r >= 0], [KeyAtRank] returns a bin index of the store
    or [maxIndex]; on a built store that has a bin the result lies between
    [minIndex] and [maxIndex]. *)
Theorem KeyAtRank_in_index_range (s : store.SparseStore) (r : float) :
  fle 0 r = true →
  (store.KeyAtRank s r ∈ bin_indices s ∨ store.KeyAtRank s r = store.maxIndex s)
  ∧ (built s → bin_indices s ≠ [] →
     store.minIndex s ≤ store.KeyAtRank s r ≤ store.maxIndex s).
Proof.
  intros Hr.
  assert (Hin : store.KeyAtRank s r ∈ bin_indices s
                ∨ store.KeyAtRank s r = store.maxIndex s).
  { unfold store.KeyAtRank. cbv zeta.
    destruct (decide (0 ∈ bin_indices s)) as [Hzero|Hzero].
    - destruct (store.rank_scan s r 0 _) as [k|] eqn:Hscan; [left | right; reflexivity].
      apply rank_scan_elem in Hscan.
      rewrite (merge_sort_Permutation Z.le (store.rank_keys s)) in Hscan.
      unfold store.rank_keys in Hscan. apply elem_of_app in Hscan as [Hk|Hk].
      + apply elem_of_replicate in Hk as [-> _]. exact Hzero.
      + exact Hk.
    - rewrite (rank_scan_skip_zeros s r Hzero _ 0);
        [|unfold is_int32, MinInt32, MaxInt32; lia|apply (fge_not_flt r 0), Hr].
      fold (ascending_keys s).
      destruct (store.rank_scan s r 0 _) as [k|] eqn:Hscan; [left | right; reflexivity].
      apply rank_scan_elem in Hscan.
      rewrite (ascending_keys_Permutation s Hzero) in Hscan. exact Hscan. }
  split; [exact Hin|]. intros Hb Hne.
  destruct (built_store_ok s Hb) as (_ & Hkeys & Hsome & _ & _).
  assert (Hdom : dom (bins_map s) ≠ ∅) by (intros He; apply Hne, bin_indices_nil, He).
  destruct Hin as [Hk| ->].
  - apply Hkeys, elem_of_bin_indices, Hk.
  - apply Hkeys, Hsome, Hdom.
Qed.

Lemma KeyAtRank_in_index_range_witness :
  (store.KeyAtRank store05 1 ∈ bin_indices store05
   ∨ store.KeyAtRank store05 1 = store.maxIndex store05)
  ∧ (built store05 → bin_indices store05 ≠ [] →
     store.minIndex store05 ≤ store.KeyAtRank store05 1 ≤ store.maxIndex store05).
Proof. apply (KeyAtRank_in_index_range store05 1). reflexivity. Defined.

Section GenericMerge.

(** Adding a sequence of bins with distinct indices, one [AddBin] each,
    to a store with an allocated map. *)
Lemma add_bins_spec (kvs : list (Z * Z)) (s : store.SparseStore) (g : gmap Z Z) :
  store.bins s = Some g → NoDup kvs.*1 →
  is_int32 (store.count s) → (∀ k, is_int32 (map_get (Some g) k)) →
  ∃ s2 g2,
    store.add_bins s ((λ kv, store.mkBin kv.1 kv.2) <$> kvs) = Returns s2
    ∧ store.bins s2 = Some g2
    ∧ (∀ k, map_get (Some g2) k
            = match list_to_map (M := gmap Z Z) kvs !! k with
              | Some v => int32 (map_get (Some g) k + v)
              | None => map_get (Some g) k
              end)
    ∧ store.count s2 = int32 (store.count s + foldr Z.add 0 kvs.*2).
Proof.
  revert s g. induction kvs as [|[j v] kvs IH]; intros s g Hb Hnd Hc Hvals.
  - exists s, g. split; [reflexivity|]. split; [exact Hb|]. split.
    + intros k. simpl. rewrite lookup_empty. reflexivity.
    + simpl. rewrite Z.add_0_r. symmetry. apply int32_id, Hc.
  - rewrite fmap_cons in Hnd. apply NoDup_cons in Hnd as [Hj Hnd].
    rewrite !fmap_cons. cbn [store.add_bins fst snd foldr].
    rewrite AddBin_AddWithCount. cbn [store.Index store.Count store.index store.bcount].
    unfold store.AddWithCount. destruct (Z.eqb_spec v 0) as [->|Hv].
    + cbn [mbind outcome_bind].
      destruct (IH s g Hb Hnd Hc Hvals) as (s2 & g2 & Hadd & Hb2 & Hget & Hcount).
      exists s2, g2. split; [exact Hadd|]. split; [exact Hb2|]. split.
      * intros k. rewrite Hget. cbn [list_to_map foldr fst snd].
        destruct (decide (j = k)) as [->|Hne].
        -- rewrite lookup_insert_eq, (not_elem_of_list_to_map_1 kvs k Hj), Z.add_0_r.
           symmetry. apply int32_id, Hvals.
        -- rewrite lookup_insert_ne by done. reflexivity.
      * rewrite Hcount. f_equal.
    + rewrite Hb. cbn [map_add mbind outcome_bind].
      set (g1 := <[j := int32 (default 0 (g !! j) + v)]> g).
      set (s1 := {| store.bins := Some g1;
                    store.count := int32 (store.count s + v);
                    store.minIndex := _; store.maxIndex := _ |}).
      assert (Hvals1 : ∀ k, is_int32 (map_get (Some g1) k)).
      { intros k. unfold g1, map_get. destruct (decide (j = k)) as [->|Hne].
        - rewrite lookup_insert_eq. apply int32_is_int32.
        - rewrite lookup_insert_ne by done. apply Hvals. }
      destruct (IH s1 g1 eq_refl Hnd (int32_is_int32 _) Hvals1)
        as (s2 & g2 & Hadd & Hb2 & Hget & Hcount).
      exists s2, g2. split; [exact Hadd|]. split; [exact Hb2|]. split.
      * intros k. rewrite Hget. cbn [list_to_map foldr fst snd].
        unfold g1, map_get. destruct (decide (j = k)) as [->|Hne].
        -- rewrite !lookup_insert_eq, (not_elem_of_list_to_map_1 kvs k Hj). reflexivity.
        -- rewrite !(lookup_insert_ne _ j k) by done. reflexivity.
      * rewrite Hcount. unfold s1. cbn [store.count].
        rewrite int32_add_l. f_equal. lia.
Qed.

(** The smallest index the [AddBin] calls leave in [minIndex]. *)
Lemma foldl_min_spec (kvs : list (Z * Z)) (m0 : Z) :
  let m := foldl (λ m kv, if kv.1 <? m then kv.1 else m) m0 kvs in
  m ≤ m0 ∧ (∀ k, k ∈ kvs.*1 → m ≤ k) ∧ (m = m0 ∨ m ∈ kvs.*1).
Proof.
  revert m0. induction kvs as [|[j v] kvs IH]; intros m0; cbn [foldl fst].
  - split; [lia|]. split; [|left; reflexivity].
    intros k Hk. apply elem_of_nil in Hk. contradiction.
  - destruct (IH (if j <? m0 then j else m0)) as (Hle & Hall & Hin).
    rewrite fmap_cons. cbn [fst].
    destruct (Z.ltb_spec j m0) as [Hlt|Hge].
    + split; [lia|]. split.
      * intros k Hk. apply elem_of_cons in Hk as [->|Hk]; [exact Hle | apply Hall, Hk].
      * right. destruct Hin as [->|Hin];
          [apply list_elem_of_here | apply list_elem_of_further, Hin].
    + split; [exact Hle|]. split.
      * intros k Hk. apply elem_of_cons in Hk as [->|Hk]; [lia | apply Hall, Hk].
      * destruct Hin as [Hin|Hin]; [left; exact Hin|].
        right. apply list_elem_of_further, Hin.
Qed.

Lemma foldl_max_spec (kvs : list (Z * Z)) (m0 : Z) :
  let m := foldl (λ m kv, if m <? kv.1 then kv.1 else m) m0 kvs in
  m0 ≤ m ∧ (∀ k, k ∈ kvs.*1 → k ≤ m) ∧ (m = m0 ∨ m ∈ kvs.*1).
Proof.
  revert m0. induction kvs as [|[j v] kvs IH]; intros m0; cbn [foldl fst].
  - split; [lia|]. split; [|left; reflexivity].
    intros k Hk. apply elem_of_nil in Hk. contradiction.
  - destruct (IH (if m0 <? j then j else m0)) as (Hle & Hall & Hin).
    rewrite fmap_cons. cbn [fst].
    destruct (Z.ltb_spec m0 j) as [Hlt|Hge].
    + split; [lia|]. split.
      * intros k Hk. apply elem_of_cons in Hk as [->|Hk]; [exact Hle | apply Hall, Hk].
      * right. destruct Hin as [->|Hin];
          [apply list_elem_of_here | apply list_elem_of_further, Hin].
    + split; [exact Hle|]. split.
      * intros k Hk. apply elem_of_cons in Hk as [->|Hk]; [lia | apply Hall, Hk].
      * destruct Hin as [Hin|Hin]; [left; exact Hin|].
        right. apply list_elem_of_further, Hin.
Qed.

(** When no bin has count 0, every [AddBin] call writes its entry: the
    loop performs the map updates of the loop over the other store's
    map, and folds the indices into [minIndex] and [maxIndex]. *)
Lemma add_bins_nonzero (kvs : list (Z * Z)) (s : store.SparseStore) (g : gmap Z Z) :
  store.bins s = Some g → Forall (λ kv, kv.2 ≠ 0) kvs →
  ∃ s2 g2,
    store.add_bins s ((λ kv, store.mkBin kv.1 kv.2) <$> kvs) = Returns s2
    ∧ store.merge_bins (Some g) kvs = Returns (Some g2)
    ∧ store.bins s2 = Some g2
    ∧ store.minIndex s2
      = foldl (λ m kv, if kv.1 <? m then kv.1 else m) (store.minIndex s) kvs
    ∧ store.maxIndex s2
      = foldl (λ m kv, if m <? kv.1 then kv.1 else m) (store.maxIndex s) kvs.
Proof.
  revert s g. induction kvs as [|[j v] kvs IH]; intros s g Hb Hall.
  - exists s, g. repeat split. exact Hb.
  - apply Forall_cons in Hall as [Hv Hall]. cbn [snd] in Hv.
    rewrite fmap_cons. cbn [store.add_bins store.merge_bins fst snd foldl].
    rewrite AddBin_AddWithCount. cbn [store.Index store.Count store.index store.bcount].
    unfold store.AddWithCount. destruct (Z.eqb_spec v 0) as [Hz|_]; [contradiction|].
    rewrite Hb. cbn [map_add mbind outcome_bind].
    set (g1 := <[j := int32 (default 0 (g !! j) + v)]> g).
    set (s1 := {| store.bins := Some g1;
                  store.count := int32 (store.count s + v);
                  store.minIndex := _; store.maxIndex := _ |}).
    destruct (IH s1 g1 eq_refl Hall) as (s2 & g2 & Hadd & Hm & Hb2 & Hmin & Hmax).
    exists s2, g2. split; [exact Hadd|]. split; [exact Hm|]. split; [exact Hb2|].
    split; [exact Hmin | exact Hmax].
Qed.

End GenericMerge.

(** X10: the two branches of [MergeWith] compared. Seen through [IsEmpty]
    and [Bins] only, as a [Store] of another type is, a built sparse store
    merges into a built store with an allocated map to the same count at
    every index (an absent bin reads 0) and the same total count as
    through the branch for sparse stores. When the other store holds no
    bin of count 0, the two branches return the same store: the same bin
    map, [minIndex] and [maxIndex]. *)
Theorem MergeWithBins_agrees (s o : store.SparseStore) :
  built s → store.bins s ≠ None → built o →
  ∃ s1 s2,
    store.MergeWith s o = Returns s1
    ∧ store.MergeWithBins s (store.IsEmpty o) (store.Bins o) = Returns s2
    ∧ (∀ k, map_get (store.bins s1) k = map_get (store.bins s2) k)
    ∧ store.TotalCount s1 = store.TotalCount s2
    ∧ ((∀ k, k ∈ bin_indices o → map_get (store.bins o) k ≠ 0) → s1 = s2).
Proof.
  intros Hs Hb Ho.
  destruct (built_store_ok s Hs) as (Hcount & _ & _ & _ & Hvals).
  destruct (built_store_ok o Ho) as (Hocount & Hokeys & Hosome & _).
  unfold store.MergeWith, store.MergeWithBins, store.Bins, store.IsEmpty.
  destruct (Z.eqb_spec (store.count o) 0) as [_|Hne]; [exists s, s; repeat split|].
  destruct (store.bins s) as [g|] eqn:Hg; [|contradiction].
  assert (Hnd : NoDup (map_range (store.bins o)).*1)
    by (rewrite map_range_bins_map; apply NoDup_fst_map_to_list).
  assert (Hc32 : is_int32 (store.count s)) by (rewrite Hcount; apply int32_is_int32).
  destruct (add_bins_spec (map_range (store.bins o)) s g Hg Hnd Hc32 Hvals)
    as (s2 & g2 & Hadd & Hb2 & Hget2 & Hcount2).
  destruct (merge_bins_allocated (map_range (store.bins o)) g) as [g1 Hm].
  rewrite Hm. cbn [mbind outcome_bind].
  eexists. exists s2. split; [reflexivity|]. split; [exact Hadd|].
  cbn [store.bins store.count store.TotalCount].
  assert (Hcounts : int32 (store.count s + store.count o) = store.count s2).
  { rewrite Hcount2, Hocount, int32_add_r. unfold bins_total. reflexivity. }
  split; [|split; [exact Hcounts|]].
  - intros k. rewrite Hb2, Hget2.
    apply (merge_bins_get (map_range (store.bins o)) g g1 k Hnd Hm).
  - intros Hnz.
    assert (Hall : Forall (λ kv : Z * Z, kv.2 ≠ 0) (map_range (store.bins o))).
    { apply Forall_forall. intros [k v] Hkv.
      rewrite <- (map_range_get o k v Hkv). apply Hnz.
      apply list_elem_of_fmap. exists (k, v). split; [reflexivity | exact Hkv]. }
    destruct (add_bins_nonzero (map_range (store.bins o)) s g Hg Hall)
      as (s3 & g3 & Hadd3 & Hm3 & Hb3 & Hmin & Hmax).
    rewrite Hadd in Hadd3. injection Hadd3 as <-.
    rewrite Hm in Hm3. injection Hm3 as <-.
    assert (Hodom : dom (bins_map o) ≠ ∅).
    { intros Hempty. apply Hne.
      rewrite Hocount, (bins_total_no_bins o Hempty). reflexivity. }
    destruct (Hosome Hodom) as [Homin Homax].
    apply elem_of_bin_indices in Homin, Homax.
    assert (Hin : ∀ k, k ∈ (map_range (store.bins o)).*1 →
                       store.minIndex o ≤ k ≤ store.maxIndex o).
    { intros k Hk. apply (Hokeys k), elem_of_bin_indices, Hk. }
    destruct (foldl_min_spec (map_range (store.bins o)) (store.minIndex s))
      as (Hle & Hlow & Hmem).
    destruct (foldl_max_spec (map_range (store.bins o)) (store.maxIndex s))
      as (Hge & Hhigh & Hmem').
    rewrite <- Hmin in Hle, Hlow, Hmem. rewrite <- Hmax in Hge, Hhigh, Hmem'.
    pose proof (Hlow _ Homin) as Hlo. pose proof (Hhigh _ Homax) as Hhi.
    apply SparseStore_eq; cbn [store.bins store.count store.minIndex store.maxIndex].
    + symmetry. exact Hb3.
    + exact Hcounts.
    + destruct (Z.ltb_spec (store.minIndex o) (store.minIndex s));
        destruct Hmem as [Hmem|Hmem]; try apply Hin in Hmem; lia.
    + destruct (Z.ltb_spec (store.maxIndex s) (store.maxIndex o));
        destruct Hmem' as [Hmem'|Hmem']; try apply Hin in Hmem'; lia.
Qed.

Lemma MergeWithBins_agrees_witness :
  ∃ s1 s2,
    store.MergeWith store05 storeNeg = Returns s1
    ∧ store.MergeWithBins store05 (store.IsEmpty storeNeg) (store.Bins storeNeg)
      = Returns s2
    ∧ (∀ k, map_get (store.bins s1) k = map_get (store.bins s2) k)
    ∧ store.TotalCount s1 = store.TotalCount s2
    ∧ ((∀ k, k ∈ bin_indices storeNeg → map_get (store.bins storeNeg) k ≠ 0) →
       s1 = s2).
Proof.
  apply (MergeWithBins_agrees store05 storeNeg);
    [exact built_store05 | discriminate | exact built_storeNeg].
Defined.

(** X11: [NewBin] fails exactly on a negative count; otherwise the bin it
    returns reads back the index and the count it was built from, and
    [AddBin] of it is [AddWithCount] of that index and count. *)
Theorem NewBin_AddBin (s : store.SparseStore) (i c : Z) :
  ((store.NewBin i c).2 ≠ None ↔ c < 0)
  ∧ ((store.NewBin i c).1 = None ↔ c < 0)
  ∧ (0 ≤ c →
     ∃ b, store.NewBin i c = (Some b, None)
          ∧ store.Index b = i ∧ store.Count b = c
          ∧ store.AddBin s b = store.AddWithCount s i c).
Proof.
  unfold store.NewBin. destruct (Z.ltb_spec c 0) as [Hc|Hc]; simpl.
  - split; [split; [intros _; exact Hc | discriminate]|].
    split; [split; [intros _; exact Hc | reflexivity]|]. intros Hc'. lia.
  - split; [split; [intros Hn; contradiction | lia]|].
    split; [split; [discriminate | lia]|]. intros _.
    eexists. split; [reflexivity|]. split; [reflexivity|]. split; [reflexivity|].
    apply AddBin_AddWithCount.
Qed.

Lemma NewBin_AddBin_witness :
  ∃ b, store.NewBin 5 2 = (Some b, None)
       ∧ store.Index b = 5 ∧ store.Count b = 2
       ∧ store.AddBin emptyStore b = store.AddWithCount emptyStore 5 2.
Proof. apply (proj2 (proj2 (NewBin_AddBin emptyStore 5 2))). lia. Defined.

(* ===================================================================== *)
(** * Further properties of the sketch *)
(* ===================================================================== *)

(** X12: [GetValuesAtQuantiles] succeeds exactly when every quantile of
    the list is answered, and then returns the answers in order. At the
    first quantile that fails it returns the nil slice with that error. An
    empty list never fails, not even on an empty sketch. *)
Theorem GetValuesAtQuantiles_spec {M : Type} `{mapping.IndexMapping M}
    (s : ddsketch.DDSketch M) (qs : list float) :
  ((ddsketch.GetValuesAtQuantiles s qs).2 = None ↔ Forall (answered s) qs)
  ∧ (Forall (answered s) qs →
     ddsketch.GetValuesAtQuantiles s qs
     = (Some ((λ q, (ddsketch.GetValueAtQuantile s q).1) <$> qs), None))
  ∧ (∀ qs1 q qs2 e,
       qs = qs1 ++ q :: qs2 → Forall (answered s) qs1 →
       (ddsketch.GetValueAtQuantile s q).2 = Some e →
       ddsketch.GetValuesAtQuantiles s qs = (None, Some e))
  ∧ ddsketch.GetValuesAtQuantiles s [] = (Some [], None).
Proof.
  assert (Hok : ∀ l, Forall (answered s) l →
            ddsketch.GetValuesAtQuantiles s l
            = (Some ((λ q, (ddsketch.GetValueAtQuantile s q).1) <$> l), None)).
  { induction l as [|q l IH]; intros Hall; [reflexivity|].
    apply Forall_cons in Hall as [Hq Hl]. unfold answered in Hq.
    cbn [ddsketch.GetValuesAtQuantiles]. rewrite (IH Hl), fmap_cons.
    destruct (ddsketch.GetValueAtQuantile s q) as [val err]. simpl in Hq. subst err.
    reflexivity. }
  assert (Hfail : ∀ l1 q l2 e, Forall (answered s) l1 →
            (ddsketch.GetValueAtQuantile s q).2 = Some e →
            ddsketch.GetValuesAtQuantiles s (l1 ++ q :: l2) = (None, Some e)).
  { induction l1 as [|q1 l1 IH]; intros q l2 e Hall Hq.
    - cbn [app ddsketch.GetValuesAtQuantiles].
      destruct (ddsketch.GetValueAtQuantile s q) as [val err]. simpl in Hq. subst err.
      reflexivity.
    - apply Forall_cons in Hall as [Hq1 Hl1]. unfold answered in Hq1.
      cbn [app ddsketch.GetValuesAtQuantiles]. rewrite (IH q l2 e Hl1 Hq).
      destruct (ddsketch.GetValueAtQuantile s q1) as [val err]. simpl in Hq1. subst err.
      reflexivity. }
  split; [|split; [exact (Hok qs)|split; [|reflexivity]]].
  - split; [|intros Hall; rewrite (Hok qs Hall); reflexivity].
    induction qs as [|q qs IH]; intros Hnone; [constructor|].
    cbn [ddsketch.GetValuesAtQuantiles] in Hnone.
    destruct (ddsketch.GetValueAtQuantile s q) as [val [e|]] eqn:Hq; [discriminate Hnone|].
    destruct (ddsketch.GetValuesAtQuantiles s qs) as [[vs|] [e|]];
      simpl in Hnone; try discriminate Hnone.
    + constructor; [unfold answered; rewrite Hq; reflexivity | apply IH; reflexivity].
    + constructor; [unfold answered; rewrite Hq; reflexivity | apply IH; reflexivity].
  - intros qs1 q qs2 e -> Hall Hq. apply Hfail; assumption.
Qed.

Lemma GetValuesAtQuantiles_spec_witness :
  ddsketch.GetValuesAtQuantiles sketchFive [0%float; 0.5%float; 1%float]
  = (Some [5%float; 5%float; 5%float], None).
Proof.
  assert (Hall : Forall (answered sketchFive) [0%float; 0.5%float; 1%float])
    by (repeat constructor).
  exact (proj1 (proj2 (GetValuesAtQuantiles_spec sketchFive
                         [0%float; 0.5%float; 1%float])) Hall).
Defined.

(** X13: [GetMaxValue] never returns an error. It returns 0 when the store
    is empty, also when the whole sketch is, and the value of the store's
    [maxIndex] otherwise. On an empty sketch [GetMinValue] returns an
    error where [GetMaxValue] returns 0. *)
Theorem GetMaxValue_never_fails {M : Type} `{mapping.IndexMapping M}
    (s : ddsketch.DDSketch M) :
  (ddsketch.GetMaxValue s).2 = None
  ∧ (store.IsEmpty (ddsketch.store s) = true → ddsketch.GetMaxValue s = (0%float, None))
  ∧ (store.IsEmpty (ddsketch.store s) = false →
     ddsketch.GetMaxValue s
     = (mapping.Value (ddsketch.IndexMapping s) (store.maxIndex (ddsketch.store s)), None))
  ∧ (ddsketch.IsEmpty s = true →
     ddsketch.GetMaxValue s = (0%float, None) ∧ (ddsketch.GetMinValue s).2 ≠ None).
Proof.
  unfold ddsketch.GetMaxValue, ddsketch.GetMinValue, ddsketch.IsEmpty,
    store.MaxIndex, store.MinIndex.
  destruct (store.IsEmpty (ddsketch.store s)) eqn:He; simpl.
  - split; [reflexivity|]. split; [reflexivity|]. split; [discriminate|].
    intros Hz. apply andb_true_iff in Hz as [Hz _]. apply Z.eqb_eq in Hz.
    rewrite Hz. simpl. split; [reflexivity | discriminate].
  - split; [reflexivity|]. split; [discriminate|]. split; [reflexivity|].
    intros Hz. apply andb_true_iff in Hz as [_ Hz]. discriminate Hz.
Qed.

Lemma GetMaxValue_never_fails_witness :
  ddsketch.GetMaxValue sketchNew = (0%float, None)
  ∧ (ddsketch.GetMinValue sketchNew).2 ≠ None.
Proof.
  apply (proj2 (proj2 (proj2 (GetMaxValue_never_fails sketchNew)))). reflexivity.
Defined.

Section ReachableQueries.

Context {M : Type} `{mapping.IndexMapping M}.

Lemma counts_ok_IsEmpty (s : ddsketch.DDSketch M) :
  counts_ok s →
  ddsketch.GetCount s = total s
  ∧ (ddsketch.IsEmpty s = true ↔ total s = 0).
Proof.
  intros (Hz & Hc & Ht). unfold total in *. split.
  - unfold ddsketch.GetCount. apply int32_id.
    unfold is_int32, MinInt32, MaxInt32 in *. lia.
  - unfold ddsketch.IsEmpty, store.IsEmpty, store.TotalCount in *.
    rewrite andb_true_iff, !Z.eqb_eq. lia.
Qed.

End ReachableQueries.

(** X14: on a sketch reachable from a new one without int32 overflow,
    [GetMinValue] returns an error exactly when the sketch is empty. It
    returns 0 when a value was counted as zero, and the value of the
    store's [minIndex] otherwise. *)
Theorem GetMinValue_reachable {M : Type} `{mapping.IndexMapping M}
    (s : ddsketch.DDSketch M) :
  reachable s →
  ((ddsketch.GetMinValue s).2 ≠ None ↔ ddsketch.IsEmpty s = true)
  ∧ (ddsketch.zeroCount s ≠ 0 → ddsketch.GetMinValue s = (0%float, None))
  ∧ (ddsketch.zeroCount s = 0 → ddsketch.IsEmpty s = false →
     ddsketch.GetMinValue s
     = (mapping.Value (ddsketch.IndexMapping s) (store.minIndex (ddsketch.store s)), None)).
Proof.
  intros Hr. destruct (reachable_counts_ok s Hr) as (Hz & Hc & _).
  unfold ddsketch.GetMinValue, ddsketch.IsEmpty, store.MinIndex, store.IsEmpty,
    store.TotalCount in *.
  destruct (Z.ltb_spec 0 (ddsketch.zeroCount s)) as [Hpos|Hzero].
  - split; [|split; [reflexivity | lia]].
    split; [intros Hn; contradiction|].
    intros He. apply andb_true_iff in He as [He _]. apply Z.eqb_eq in He. lia.
  - assert (Hz0 : ddsketch.zeroCount s = 0) by lia. rewrite Hz0. simpl.
    destruct (Z.eqb_spec (store.count (ddsketch.store s)) 0) as [Hc0|Hc0]; simpl.
    + split; [split; [reflexivity | discriminate]|]. split; [lia | discriminate].
    + split; [split; [intros Hn; contradiction | discriminate]|].
      split; [lia | reflexivity].
Qed.

Lemma GetMinValue_reachable_witness :
  ddsketch.GetMinValue sketchFive = (5%float, None).
Proof.
  refine (proj2 (proj2 (GetMinValue_reachable sketchFive _)) _ _);
    [|reflexivity|reflexivity].
  apply (reach_Add sketchAlloc sketchFive 5);
    [apply reach_new; right; reflexivity | vm_compute; discriminate
    | exact sketchFive_built].
Defined.

(** X15: count conservation. A new sketch after [n] successful [Add] calls
    has [GetCount() = n] in int32 arithmetic, whichever counter received
    each value; up to [MaxInt32] calls that is [n] itself. *)
Theorem GetCount_after_adds {M : Type} `{mapping.IndexMapping M}
    (n : nat) (s : ddsketch.DDSketch M) :
  after_adds n s →
  ddsketch.GetCount s = int32 (Z.of_nat n)
  ∧ (Z.of_nat n ≤ MaxInt32 → ddsketch.GetCount s = Z.of_nat n).
Proof.
  intros Hadds.
  assert (Hcount : ddsketch.GetCount s = int32 (Z.of_nat n)).
  { induction Hadds as [m st Hfresh|n s s' v _ IH Hadd].
    - destruct Hfresh as [-> | ->]; reflexivity.
    - rewrite (AddWithCount_GetCount s s' v 1 Hadd), IH, int32_add_l.
      f_equal. lia. }
  split; [exact Hcount|]. intros Hn. rewrite Hcount. apply int32_id.
  unfold is_int32, MinInt32, MaxInt32 in *. lia.
Qed.

Lemma GetCount_after_adds_witness :
  ddsketch.GetCount sketchFive = int32 (Z.of_nat 1)
  ∧ (Z.of_nat 1 ≤ MaxInt32 → ddsketch.GetCount sketchFive = Z.of_nat 1).
Proof.
  apply (GetCount_after_adds 1 sketchFive).
  apply (after_Add 0 sketchAlloc sketchFive 5);
    [apply after_none; right; reflexivity | exact sketchFive_built].
Defined.

(** X17: the three outcomes of the sketch's [MergeWith]. It returns an
    error exactly when [Equals] rejects the other mapping, and then the
    receiver is unchanged. It panics exactly when the mappings are equal
    and the store's [MergeWith] panics. Otherwise it keeps the receiver's
    mapping, merges the stores and adds the zero counts in int32
    arithmetic. *)
Theorem sketch_MergeWith_outcome {M : Type} `{mapping.IndexMapping M}
    (s o : ddsketch.DDSketch M) :
  let equal := mapping.Equals (ddsketch.IndexMapping s) (ddsketch.IndexMapping o) in
  ((∃ s', fails_with (ddsketch.MergeWith s o) s') ↔ equal = false)
  ∧ (∀ s', fails_with (ddsketch.MergeWith s o) s' → s' = s)
  ∧ (panicked (ddsketch.MergeWith s o)
     ↔ equal = true ∧ panicked (store.MergeWith (ddsketch.store s) (ddsketch.store o)))
  ∧ (∀ s', succeeds_with (ddsketch.MergeWith s o) s' →
       equal = true
       ∧ ddsketch.IndexMapping s' = ddsketch.IndexMapping s
       ∧ store.MergeWith (ddsketch.store s) (ddsketch.store o)
         = Returns (ddsketch.store s')
       ∧ ddsketch.zeroCount s' = int32 (ddsketch.zeroCount s + ddsketch.zeroCount o)).
Proof.
  intros equal. unfold fails_with, succeeds_with, panicked, ddsketch.MergeWith.
  fold equal. destruct equal; simpl.
  - destruct (store.MergeWith (ddsketch.store s) (ddsketch.store o)) as [st|msg]; simpl.
    + split; [split; [intros [s' [e He]]; discriminate He | discriminate]|].
      split; [intros s' [e He]; discriminate He|].
      split; [split; [intros [m Hm]; discriminate Hm | intros [_ [m Hm]]; discriminate Hm]|].
      intros s' [= <-]. repeat split.
    + split; [split; [intros [s' [e He]]; discriminate He | discriminate]|].
      split; [intros s' [e He]; discriminate He|].
      split; [split; [intros _; split; [reflexivity | eauto] | intros _; eauto]|].
      intros s' Hs. discriminate Hs.
  - split; [split; [reflexivity | intros _; eauto]|].
    split; [intros s' [e [= <-]]; reflexivity|].
    split; [split; [intros [m Hm]; discriminate Hm | intros [Hf _]; discriminate Hf]|].
    intros s' Hs. discriminate Hs.
Qed.

(** X18: on a sketch reachable from a new one without int32 overflow, a
    quantile query returns an error exactly when [q < 0], [q > 1] or
    [IsEmpty()] holds; [GetValuesAtQuantiles] fails on an empty sketch for
    every list but the empty one. *)
Theorem quantile_fails_iff_empty {M : Type} `{mapping.IndexMapping M}
    (s : ddsketch.DDSketch M) (q : float) :
  reachable s →
  ((ddsketch.GetValueAtQuantile s q).2 ≠ None
   ↔ flt q 0 = true ∨ fgt q 1 = true ∨ ddsketch.IsEmpty s = true)
  ∧ (ddsketch.IsEmpty s = true →
     ∀ qs, (ddsketch.GetValuesAtQuantiles s qs).2 = None ↔ qs = []).
Proof.
  intros Hr. pose proof (reachable_counts_ok s Hr) as Hok.
  destruct (counts_ok_IsEmpty s Hok) as [Hcount Hempty].
  assert (Hq : ∀ q0, (ddsketch.GetValueAtQuantile s q0).2 ≠ None
                     ↔ flt q0 0 = true ∨ fgt q0 1 = true ∨ ddsketch.IsEmpty s = true).
  { intros q0. rewrite Hempty, <- Hcount. unfold ddsketch.GetValueAtQuantile.
    destruct (flt q0 0) eqn:Hlo; simpl; [split; [tauto | discriminate]|].
    destruct (fgt q0 1) eqn:Hhi; simpl; [split; [tauto | discriminate]|].
    destruct (Z.eqb_spec (ddsketch.GetCount s) 0) as [Hz|Hz]; simpl;
      [split; [tauto | discriminate]|].
    destruct (flt _ (float64 (ddsketch.zeroCount s))); simpl;
      (split; [intros Hn; contradiction | intros [?|[?|?]]; congruence]). }
  split; [apply Hq|]. intros He qs. split.
  - destruct qs as [|q0 qs]; [reflexivity|]. intros Hnone. exfalso.
    cbn [ddsketch.GetValuesAtQuantiles] in Hnone.
    assert (Hfail : (ddsketch.GetValueAtQuantile s q0).2 ≠ None) by (apply Hq; tauto).
    destruct (ddsketch.GetValueAtQuantile s q0) as [val [e|]];
      [discriminate Hnone | contradiction].
  - intros ->. reflexivity.
Qed.

Lemma quantile_fails_iff_empty_witness :
  (ddsketch.GetValueAtQuantile sketchAlloc 0.5).2 ≠ None
  ∧ ∀ qs, (ddsketch.GetValuesAtQuantiles sketchAlloc qs).2 = None ↔ qs = [].
Proof.
  assert (Hr : reachable sketchAlloc) by (apply reach_new; right; reflexivity).
  split.
  - apply (proj1 (quantile_fails_iff_empty sketchAlloc 0.5 Hr)). right. right. reflexivity.
  - apply (proj2 (quantile_fails_iff_empty sketchAlloc 0.5 Hr)). reflexivity.
Defined.

Lemma sketch_MergeWith_outcome_witness :
  ∃ s', fails_with
          (ddsketch.MergeWith sketchAlloc
             (ddsketch.NewDDSketch {| lo := 0.5%float; hi := 2000%float |} emptyStore)) s'.
Proof.
  apply (proj2 (proj1 (sketch_MergeWith_outcome sketchAlloc
           (ddsketch.NewDDSketch {| lo := 0.5%float; hi := 2000%float |} emptyStore)))).
  reflexivity.
Defined.

Section NaNQuantile.

Lemma mul_NaN_l (x : float) : PrimFloat.mul NaN x = NaN.
Proof.
  apply NaN_unique. rewrite mul_spec. change (Prim2SF NaN) with S754_nan. reflexivity.
Qed.

Lemma sub_NaN_l (x : float) : PrimFloat.sub NaN x = NaN.
Proof.
  apply NaN_unique. rewrite sub_spec. change (Prim2SF NaN) with S754_nan. reflexivity.
Qed.

End NaNQuantile.

(** X23: a NaN quantile is answered like the maximum. On a sketch whose
    [GetCount()] is not 0, [GetValueAtQuantile(NaN)] returns without an
    error the value of the store's [maxIndex]: the rank is NaN, no count
    exceeds it, and [KeyAtRank] falls back on [maxIndex]. *)
Theorem GetValueAtQuantile_NaN {M : Type} `{mapping.IndexMapping M}
    (s : ddsketch.DDSketch M) :
  ddsketch.GetCount s ≠ 0 →
  ddsketch.GetValueAtQuantile s NaN
  = (mapping.Value (ddsketch.IndexMapping s) (store.maxIndex (ddsketch.store s)), None).
Proof.
  intros Hcount. unfold ddsketch.GetValueAtQuantile.
  rewrite flt_NaN_l, fgt_NaN_l. simpl.
  destruct (Z.eqb_spec (ddsketch.GetCount s) 0) as [?|_]; [contradiction|].
  rewrite mul_NaN_l, flt_NaN_l, sub_NaN_l.
  unfold store.KeyAtRank. cbv zeta. rewrite rank_scan_NaN. reflexivity.
Qed.

Lemma GetValueAtQuantile_NaN_witness :
  ddsketch.GetValueAtQuantile sketchFive NaN
  = (mapping.Value (ddsketch.IndexMapping sketchFive)
       (store.maxIndex (ddsketch.store sketchFive)), None).
Proof. apply (GetValueAtQuantile_NaN sketchFive). vm_compute. discriminate. Defined.
(* ===================================================================== *)
(** * Properties of the linearly-interpolated mapping *)
(* ===================================================================== *)

Section MappingFacts.

Import mapping.LinearlyInterpolated.

(** Rounding treats a mantissa and its opposite alike, up to the sign. *)
Lemma SFabs_binary_round_aux (s s' : bool) (m e : Z) (l : location) :
  SFabs (binary_round_aux prec emax s m e l)
  = SFabs (binary_round_aux prec emax s' m e l).
Proof.
  unfold binary_round_aux.
  destruct (shr_fexp prec emax m e l) as [mrs' e'].
  destruct (shr_fexp prec emax _ e' loc_Exact) as [mrs'' e''].
  destruct (shr_m mrs'') as [|p|p]; try reflexivity.
  destruct (e'' <=? emax - prec); reflexivity.
Qed.

Lemma SFabs_binary_normalize_opp (m e : Z) (szero : bool) :
  SFabs (binary_normalize prec emax (- m) e szero)
  = SFabs (binary_normalize prec emax m e szero).
Proof.
  destruct m as [|p|p]; simpl; try reflexivity;
    unfold binary_round; destruct (shl_align _ _ _) as [mz ez];
    apply SFabs_binary_round_aux.
Qed.

Lemma SFabs_SFsub_swap (a b : spec_float) :
  SFabs (SFsub prec emax a b) = SFabs (SFsub prec emax b a).
Proof.
  destruct a as [sa|sa| |sa ma ea], b as [sb|sb| |sb mb eb]; simpl;
    try reflexivity; try (destruct sa, sb; reflexivity).
  rewrite (Z.min_comm eb ea).
  rewrite <- SFabs_binary_normalize_opp. f_equal. f_equal. lia.
Qed.

(** [|x - y|] and [|y - x|] are the same float64. *)
Lemma Abs_sub_swap (x y : float) : Abs (x - y) = Abs (y - x).
Proof.
  unfold Abs. apply Prim2SF_inj.
  rewrite !abs_spec, !sub_spec. apply SFabs_SFsub_swap.
Qed.

Lemma feq_swap (x y : float) : feq x y = feq y x.
Proof.
  unfold feq. rewrite !FloatAxioms.eqb_spec. unfold SFeqb.
  rewrite (SFcompare_swap (Prim2SF x) (Prim2SF y)).
  destruct (SFcompare (Prim2SF x) (Prim2SF y)) as [[| |]|]; reflexivity.
Qed.

(** Two numbers that compare equal are the same float64, or both zero. *)
Lemma SFcompare_Eq (a b : spec_float) :
  SFcompare a b = Some Eq →
  a = b ∨ (∃ sa sb, a = S754_zero sa ∧ b = S754_zero sb).
Proof.
  destruct a as [sa|sa| |sa ma ea], b as [sb|sb| |sb mb eb]; simpl;
    try discriminate; try (destruct sa; discriminate);
    try (destruct sb; discriminate).
  - intros _. right. eauto.
  - destruct sa, sb; try discriminate; intros _; left; reflexivity.
  - destruct sa, sb; try discriminate;
      destruct (ea ?= eb) eqn:He; try discriminate;
      apply Z.compare_eq in He; subst eb;
      destruct (PosDef.Pos.compare_cont Eq ma mb) eqn:Hm; try discriminate;
      apply Pos.compare_eq in Hm; subst mb; intros _; left; reflexivity.
Qed.

Lemma Max_swap (x y : float) : Max x y = Max y x.
Proof.
  unfold Max.
  rewrite (orb_comm (feq x infinity)), (orb_comm (PrimFloat.is_nan x)).
  destruct (feq y infinity || feq x infinity); [reflexivity|].
  destruct (PrimFloat.is_nan y || PrimFloat.is_nan x) eqn:Hnan; [reflexivity|].
  apply orb_false_elim in Hnan as [Hy Hx].
  unfold PrimFloat.is_nan in Hx, Hy. apply negb_false_iff in Hx, Hy.
  rewrite (feq_swap y x).
  unfold feq, fgt in *. rewrite !FloatAxioms.eqb_spec, !FloatAxioms.ltb_spec in *.
  change (Prim2SF 0) with (S754_zero false).
  unfold SFeqb, SFltb in *.
  rewrite (SFcompare_swap (Prim2SF x) (Prim2SF y)).
  pose proof (SFcompare_Eq (Prim2SF x) (Prim2SF y)) as Heq.
  assert (Hinj : Prim2SF x = Prim2SF y → x = y) by apply Prim2SF_inj.
  destruct (Prim2SF x) as [sx|sx| |sx mx ex], (Prim2SF y) as [sy|sy| |sy my ey];
    simpl in *; try discriminate;
    try destruct sx; try destruct sy; simpl in *; try reflexivity;
    try (apply Hinj; reflexivity); try (symmetry; apply Hinj; reflexivity).
  all: destruct (ex ?= ey); simpl in *; try reflexivity;
    destruct (PosDef.Pos.compare_cont Eq mx my); simpl in *; try reflexivity;
    (destruct Heq as [Heq|(? & ? & ? & _)]; [reflexivity| |discriminate]);
    symmetry; auto.
Qed.

Lemma withinTolerance_swap (x y tol : float) :
  withinTolerance x y tol = withinTolerance y x tol.
Proof.
  unfold withinTolerance.
  rewrite (orb_comm (feq x 0)), (andb_comm (fle (Abs x) tol)).
  rewrite (Abs_sub_swap x y), (Max_swap (Abs x) (Abs y)). reflexivity.
Qed.

(** The maximum of a float64 with itself is that float64. *)
Lemma Max_same (z : float) : Max z z = z.
Proof.
  unfold Max. rewrite !orb_diag.
  destruct (feq z infinity) eqn:Hinf.
  { unfold feq in Hinf. rewrite FloatAxioms.eqb_spec in Hinf.
    apply Prim2SF_inj. change (Prim2SF infinity) with (S754_infinity false) in *.
    destruct (Prim2SF z) as [s|[|]| |[|] m e]; simpl in Hinf;
      solve [discriminate | reflexivity]. }
  destruct (PrimFloat.is_nan z) eqn:Hnan.
  { symmetry. apply NaN_unique. unfold PrimFloat.is_nan in Hnan.
    apply negb_true_iff in Hnan. rewrite FloatAxioms.eqb_spec in Hnan.
    destruct (Prim2SF z) as [s|[|]| |[|] m e]; simpl in Hnan;
      try discriminate; try reflexivity;
      unfold SFeqb in Hnan; simpl in Hnan;
      rewrite Z.compare_refl, Pos.compare_cont_refl in Hnan; discriminate. }
  destruct (feq z 0 && feq z z); [destruct (Prim2SF z) as [[|]| | |]; reflexivity|].
  destruct (fgt z z); reflexivity.
Qed.

(** Rounding a non-negative mantissa with a positive sign gives a value
    that is not below zero. *)
Lemma binary_round_aux_nonneg (mx ex : Z) (lx : location) :
  0 ≤ mx →
  SFleb (S754_zero false) (binary_round_aux prec emax false mx ex lx) = true.
Proof.
  intros Hm. unfold binary_round_aux.
  pose proof (shr_fexp_nonneg mx ex lx Hm) as H1.
  destruct (shr_fexp prec emax mx ex lx) as [mrs' e']. simpl in H1.
  pose proof (shr_fexp_nonneg _ e' loc_Exact
                (round_nearest_even_nonneg _ (loc_of_shr_record mrs') H1)) as H2.
  destruct (shr_fexp prec emax _ e' loc_Exact) as [mrs'' e'']. simpl in H2.
  destruct (shr_m mrs'') as [|p|p]; [reflexivity | | lia].
  destruct (e'' <=? emax - prec); reflexivity.
Qed.

(** A value is within tolerance of itself exactly when it is finite:
    the difference of an infinity with itself is NaN. *)
Lemma withinTolerance_same (x tol : float) (mt : positive) (et : Z) :
  Prim2SF tol = S754_finite false mt et →
  withinTolerance x x tol = PrimFloat.is_finite x.
Proof.
  intros Htol.
  unfold withinTolerance, PrimFloat.is_finite, PrimFloat.is_nan,
    PrimFloat.is_infinity, feq, fle, Abs.
  rewrite Max_same, orb_diag, andb_diag.
  rewrite !FloatAxioms.eqb_spec, !FloatAxioms.leb_spec, mul_spec, !abs_spec, sub_spec.
  rewrite Htol.
  change (Prim2SF 0) with (S754_zero false).
  change (Prim2SF infinity) with (S754_infinity false).
  destruct (Prim2SF x) as [s|s| |s m e]; try reflexivity.
  - destruct s; reflexivity.
  - unfold SFeqb, SFabs, SF64sub, SFsub, SF64mul, SFmul.
    rewrite Z.sub_diag. cbn [SFcompare binary_normalize xorb].
    rewrite Z.compare_refl, Pos.compare_cont_refl.
    destruct s; cbn [negb orb];
      apply binary_round_aux_nonneg; lia.
Qed.

End MappingFacts.

Section MappingEquals.

Import mapping.LinearlyInterpolated.

(** X20: [Equals] on two linearly-interpolated mappings is symmetric, and
    a mapping equals itself exactly when its [multiplier] and its
    [normalizedIndexOffset] are finite: for an infinity or a NaN the
    difference of the field with itself is NaN and the comparison is
    false. The [relativeAccuracy] fields are not compared. *)
Theorem Equals_symmetric_reflexive_on_finite (m o : LinearlyInterpolatedMapping) :
  Equals m o = Equals o m
  ∧ (Equals m m = true
     ↔ PrimFloat.is_finite (multiplier m) = true
       ∧ PrimFloat.is_finite (normalizedIndexOffset m) = true)
  ∧ ∀ a b : float,
      Equals (mkLinearlyInterpolatedMapping a (multiplier m) (normalizedIndexOffset m))
             (mkLinearlyInterpolatedMapping b (multiplier o) (normalizedIndexOffset o))
      = Equals m o.
Proof.
  unfold Equals. cbv zeta.
  split; [|split; [|reflexivity]].
  - rewrite (withinTolerance_swap (multiplier m)),
      (withinTolerance_swap (normalizedIndexOffset m)). reflexivity.
  - rewrite !(withinTolerance_same _ 0x1.19799812dea11p-40%float
                4951760157141521%positive (-92)%Z eq_refl).
    apply andb_true_iff.
Qed.

End MappingEquals.
